(** * vue3-reactive.js: a reactive dependency-tracking engine

    A shallow embedding of [src/vue3-reactive.js] and the properties of its
    specification.

    The library's functions ([isObject], [reactive], [createReactiveObject],
    [hasKey], the three traps of [baseHandler], [effect],
    [createReactiveEffect], [run], [track], [trigger]) are Rocq functions over
    an explicit store that holds the module's globals ([toProxy], [toRaw],
    [activeEffectStack], [targetMap]) next to the JavaScript heap.

    The library calls back into host code (the function given to [effect]) and
    host code calls into the library (every property access on a proxy), so
    the host side is a small expression language whose interpreter [exec] is
    defined by recursion on fuel, hand in hand with the library functions.

    Modelling conventions:
    - a raw object is a record of own data properties, keyed by strings;
      members inherited from [Object.prototype] are not part of a record, and
      [target.hasOwnProperty(key)] is the built-in own-key test. The model
      is therefore exact on reads of own keys and of keys that
      [Object.prototype] lacks, on writes of every key but ["__proto__"]
      (an inherited accessor), and on records that do not own a key
      ["hasOwnProperty"]; [Object_prototype_keys] names the inherited
      members, and the statements that depend on it say so;
    - numbers are IEEE doubles (primitive floats), so that [===] on numbers
      is the IEEE comparison ([NaN !== NaN], [+0 === -0]);
    - a [Set] is the list of its elements in insertion order, without
      duplicates; [Set.prototype.forEach] visits elements in that order,
      including the ones added while it runs;
    - a [WeakMap] keyed by objects is a finite map keyed by heap locations;
    - objects are never freed (the model has no garbage collector);
    - an exception is the thrown value; the [TypeError] of the language is
      the string ["TypeError"];
    - property access on a number, a string, a boolean or a function, and
      the use of an address that holds no object, are outside the model: the
      interpreter answers [Stuck];
    - [runs] is a history variable: it records every call [fn()] made by
      [run], with the nesting depth of that run.  No function reads it. *)

From Stdlib Require Import Floats.PrimFloat.
From stdpp Require Import gmap strings list fin_maps.

Open Scope string_scope.
Open Scope list_scope.
Open Scope nat_scope.

(** ** Values and the heap *)

Abbreviation loc := nat (only parsing).
Abbreviation handle := nat (only parsing).

Inductive value : Type :=
| VUndef
| VNull
| VBool (b : bool)
| VNum (x : float)
| VStr (t : string)
| VRef (l : loc)       (* an ordinary object or a proxy, by its address *)
| VFun (f : handle).   (* a function object made by createReactiveEffect *)

(** A heap cell is an ordinary object or a proxy created by
    [new Proxy(target, baseHandler)]; every proxy of this program has the
    same three traps, so the cell only remembers its target. *)
Inductive cell : Type :=
| Plain (props : gmap string value)
| Proxy (target : loc).

(** Host code: what a callback handed to [effect], or top-level code, can do. *)
Inductive expr : Type :=
| EVal (v : value)                            (* a literal, or a captured reference *)
| ENew (props : list (string * value))        (* { k1: v1, ... } *)
| EGet (e : expr) (key : string)              (* e.key *)
| ESet (e : expr) (key : string) (e' : expr)  (* e.key = e' *)
| EDelete (e : expr) (key : string)           (* delete e.key *)
| EReactive (e : expr)                        (* reactive(e) *)
| EEffect (fn : expr)                         (* effect(() => { fn }) *)
| ESeq (e1 e2 : expr)                         (* e1; e2 *)
| EIf (c e1 e2 : expr)                        (* if (c) { e1 } else { e2 } *)
| EThrow (e : expr)                           (* throw e *)
| ETry (e1 e2 : expr).                        (* try { e1 } catch { e2 } *)

Record state : Type := State {
  heap : list cell;
  toProxy : gmap loc loc;
  toRaw : gmap loc loc;
  activeEffectStack : list handle;
  targetMap : gmap loc (gmap string (list handle));
  effects : list expr;            (* the closures made by createReactiveEffect *)
  console : list string;
  runs : list (handle * nat)      (* history of the calls fn() made by run *)
}.

Definition with_heap (h : list cell) (s : state) : state :=
  State h (toProxy s) (toRaw s) (activeEffectStack s) (targetMap s)
        (effects s) (console s) (runs s).

Definition with_stack (st : list handle) (s : state) : state :=
  State (heap s) (toProxy s) (toRaw s) st (targetMap s)
        (effects s) (console s) (runs s).

Definition with_targetMap (tm : gmap loc (gmap string (list handle))) (s : state) : state :=
  State (heap s) (toProxy s) (toRaw s) (activeEffectStack s) tm
        (effects s) (console s) (runs s).

Definition with_effects (fs : list expr) (s : state) : state :=
  State (heap s) (toProxy s) (toRaw s) (activeEffectStack s) (targetMap s)
        fs (console s) (runs s).

Definition with_console (c : list string) (s : state) : state :=
  State (heap s) (toProxy s) (toRaw s) (activeEffectStack s) (targetMap s)
        (effects s) c (runs s).

Definition with_runs (r : list (handle * nat)) (s : state) : state :=
  State (heap s) (toProxy s) (toRaw s) (activeEffectStack s) (targetMap s)
        (effects s) (console s) r.

(** The store a script starts in: the objects it has built so far, and the
    module's globals as their initialisers leave them. *)
Definition init (h : list cell) : state := State h ∅ ∅ [] ∅ [] [] [].

(** ** Primitive operations of the language *)

Definition typeof (v : value) : string :=
  match v with
  | VUndef => "undefined"
  | VNull => "object"
  | VBool _ => "boolean"
  | VNum _ => "number"
  | VStr _ => "string"
  | VRef _ => "object"
  | VFun _ => "function"
  end.

(** [a === b] *)
Definition strict_eq (a b : value) : bool :=
  match a, b with
  | VUndef, VUndef => true
  | VNull, VNull => true
  | VBool x, VBool y => Bool.eqb x y
  | VNum x, VNum y => PrimFloat.eqb x y
  | VStr x, VStr y => String.eqb x y
  | VRef x, VRef y => Nat.eqb x y
  | VFun x, VFun y => Nat.eqb x y
  | _, _ => false
  end.

(** [a !== b] *)
Definition strict_neq (a b : value) : bool := negb (strict_eq a b).

(** ToBoolean, as used by [if]. *)
Definition truthy (v : value) : bool :=
  match v with
  | VUndef | VNull => false
  | VBool b => b
  | VNum x => negb (PrimFloat.eqb x 0%float) && PrimFloat.eqb x x
  | VStr t => negb (String.eqb t "")
  | VRef _ | VFun _ => true
  end.

(** The own properties of the object at [l] (none when [l] is not an
    ordinary object). *)
Definition props_of (s : state) (l : loc) : gmap string value :=
  match heap s !! l with
  | Some (Plain props) => props
  | _ => ∅
  end.

(** [Reflect.get(target, key, receiver)] on a record: the own data property,
    or [undefined]. Exact for own keys and for the keys that
    [Object.prototype] lacks; an inherited member is not represented. *)
Definition Reflect_get (s : state) (target : loc) (key : string) : value :=
  default VUndef (props_of s target !! key).

(** [Reflect.set(target, key, value, receiver)] where [receiver] is the proxy
    over [target]: the property is defined on the receiver, whose
    [[DefineOwnProperty]] has no trap and forwards to [target]. The call
    returns [true]. Exact for every key but ["__proto__"], whose inherited
    setter the source would run instead. *)
Definition Reflect_set (target : loc) (key : string) (v : value) (s : state) : state :=
  with_heap (<[target := Plain (<[key := v]> (props_of s target))]> (heap s)) s.

(** [Reflect.deleteProperty(target, key)]; returns [true]. *)
Definition Reflect_deleteProperty (target : loc) (key : string) (s : state) : state :=
  with_heap (<[target := Plain (delete key (props_of s target))]> (heap s)) s.

(** ** Outcomes and the monad of computations *)

Inductive outcome (A : Type) : Type :=
| Ret (a : A) (s : state)        (* normal completion *)
| Throw (v : value) (s : state)  (* abrupt completion: an exception *)
| OutOfFuel                      (* the fuel did not suffice *)
| Stuck.                         (* outside the modelled fragment *)
Arguments Ret {A} a s.
Arguments Throw {A} v s.
Arguments OutOfFuel {A}.
Arguments Stuck {A}.

Definition M (A : Type) : Type := state → outcome A.

Definition ret {A} (a : A) : M A := fun s => Ret a s.

Definition bind {A B} (m : M A) (k : A → M B) : M B := fun s =>
  match m s with
  | Ret a s' => k a s'
  | Throw v s' => Throw v s'
  | OutOfFuel => OutOfFuel
  | Stuck => Stuck
  end.

Notation "'let*' x ':=' m 'in' k" := (bind m (fun x => k))
  (at level 10, x pattern, m at level 100, k at level 200).

Definition throw {A} (v : value) : M A := fun s => Throw v s.

(** A total, exception-free step. *)
Definition lift {A} (f : state → A * state) : M A := fun s =>
  let '(a, s') := f s in Ret a s'.

Definition modify (f : state → state) : M unit := fun s => Ret tt (f s).

(** [try { body } catch { handler }] *)
Definition try_catch {A} (body handler : M A) : M A := fun s =>
  match body s with
  | Throw _ s' => handler s'
  | r => r
  end.

(** [try { body } finally { fin }], for a [fin] that cannot fail. *)
Definition try_finally {A} (body : M A) (fin : state → state) : M A := fun s =>
  match body s with
  | Ret a s' => Ret a (fin s')
  | Throw v s' => Throw v (fin s')
  | OutOfFuel => OutOfFuel
  | Stuck => Stuck
  end.

(** The value thrown by the language itself on [undefined.key] and the like. *)
Definition TypeError : value := VStr "TypeError".

(** ** The library *)

(** [function isObject(value)] *)
Definition isObject (v : value) : bool :=
  String.eqb (typeof v) "object" && strict_neq v VNull.

(** [function hasKey(target, key)], that is [target.hasOwnProperty(key)],
    for a record on which that call reaches the built-in method: one that
    does not own a key ["hasOwnProperty"]. (On a record that owns such a key
    the source calls what the record holds, and throws a [TypeError] when
    that is not a function.) *)
Definition hasKey (s : state) (target : loc) (key : string) : bool :=
  bool_decide (is_Some (props_of s target !! key)).

(** [function createReactiveObject(target)] *)
Definition createReactiveObject (target : value) (s : state) : value * state :=
  if negb (isObject target) then (target, s)
  else
    match target with
    | VRef t =>
      match toProxy s !! t with          (* let observed = toProxy.get(target) *)
      | Some observed => (VRef observed, s)   (* if (observed): a proxy is truthy *)
      | None =>
        if bool_decide (is_Some (toRaw s !! t)) then (target, s)  (* toRaw.has(target) *)
        else
          (* observed = new Proxy(target, baseHandler), then the two [set]s *)
          let observed := length (heap s) in
          (VRef observed,
           State (heap s ++ [Proxy t])
                 (<[t := observed]> (toProxy s))
                 (<[observed := t]> (toRaw s))
                 (activeEffectStack s) (targetMap s)
                 (effects s) (console s) (runs s))
      end
    | _ => (target, s)
    end.

(** [function reactive(target)] *)
Definition reactive (target : value) (s : state) : value * state :=
  createReactiveObject target s.

(** The dependency set of [(target, key)], empty when none was created. *)
Definition deps_of (s : state) (target : loc) (key : string) : list handle :=
  default [] (default ∅ (targetMap s !! target) !! key).

(** [function track(target, key)] *)
Definition track (target : loc) (key : string) (s : state) : state :=
  match last (activeEffectStack s) with
  | Some effect =>
    let depsMap : gmap string (list handle) := default ∅ (targetMap s !! target) in
    let deps : list handle := default [] (depsMap !! key) in
    let deps' := if bool_decide (effect ∈ deps) then deps else deps ++ [effect] in
    with_targetMap (<[target := <[key := deps']> depsMap]> (targetMap s)) s
  | None => s
  end.

(** [baseHandler.get(target, key, receiver)] *)
Definition baseHandler_get (target : loc) (key : string) (receiver : loc)
    (s : state) : value * state :=
  let result := Reflect_get s target key in
  let s1 := track target key s in
  if isObject result then reactive result s1 else (result, s1).

(** [baseHandler.deleteProperty(target, key)] *)
Definition baseHandler_deleteProperty (target : loc) (key : string)
    (s : state) : value * state :=
  let s1 := Reflect_deleteProperty target key s in
  let s2 := with_console (console s1 ++ ["delete"]) s1 in
  (VBool true, s2).

(** [function createReactiveEffect(fn)]: a new function object closing over
    [fn]; its handle is its identity. *)
Definition createReactiveEffect (fn : expr) (s : state) : handle * state :=
  (length (effects s), with_effects (effects s ++ [fn]) s).

(** [activeEffectStack.push(effect)] *)
Definition push (effect : handle) (s : state) : state :=
  with_stack (activeEffectStack s ++ [effect]) s.

(** [activeEffectStack.pop()] *)
Definition pop (s : state) : state :=
  with_stack (removelast (activeEffectStack s)) s.

(** History: [effect] is about to call its [fn]; the depth counts the runs
    in progress, this one included. *)
Definition note_run (effect : handle) (s : state) : state :=
  with_runs (runs s ++ [(effect, length (activeEffectStack s))]) s.

Section Library.

(** How a user function is called; [exec] below ties the knot. *)
Variable call : expr → M value.

(** [function run(effect, fn)] *)
Definition run (effect : handle) (fn : expr) : M value :=
  let* _ :=
    try_finally
      (let* _ := modify (push effect) in
       let* _ := modify (note_run effect) in
       call fn)
      pop in
  ret VUndef.

(** Calling the closure [function () { return run(effect, fn) }]. *)
Definition invoke (effect : handle) : M value := fun s =>
  match effects s !! effect with
  | Some fn => run effect fn s
  | None => Stuck
  end.

(** [function effect(fn)] *)
Definition effect (fn : expr) : M value :=
  let* effect := lift (createReactiveEffect fn) in
  let* _ := invoke effect in
  ret VUndef.

(** [deps.forEach(effect => { effect() })], from position [i] on. The set
    is looked up in the store at every step: it is one shared object, and
    the elements that the running effects add to it are visited too. *)
Fixpoint forEach (fuel : nat) (target : loc) (key : string) (i : nat) : M unit :=
  fun s =>
    match deps_of s target key !! i with
    | None => Ret tt s
    | Some effect =>
      match fuel with
      | 0 => OutOfFuel
      | S fuel' =>
        (let* _ := invoke effect in forEach fuel' target key (S i)) s
      end
    end.

(** [function trigger(target, type, key)] *)
Definition trigger (fuel : nat) (target : loc) (type : string) (key : string) : M unit :=
  fun s =>
    match targetMap s !! target with
    | Some depsMap =>
      match depsMap !! key with
      | Some deps => forEach fuel target key 0 s
      | None => Ret tt s
      end
    | None => Ret tt s
    end.

(** [baseHandler.set(target, key, value, receiver)] *)
Definition baseHandler_set (fuel : nat) (target : loc) (key : string) (v : value)
    (receiver : loc) : M value :=
  fun s =>
    let isOwn := hasKey s target key in
    let oldValue := Reflect_get s target key in
    let result := VBool true in
    let s1 := Reflect_set target key v s in
    if negb isOwn then
      (let* _ := trigger fuel target "add" key in ret result) s1
    else if strict_neq oldValue v then
      (let* _ := trigger fuel target "set" key in ret result) s1
    else Ret result s1.

(** *** Property access in host code *)

(** [o.key] *)
Definition getV (o : value) (key : string) : M value := fun s =>
  match o with
  | VUndef | VNull => Throw TypeError s
  | VRef l =>
    match heap s !! l with
    | Some (Plain props) => Ret (default VUndef (props !! key)) s
    | Some (Proxy target) => lift (baseHandler_get target key l) s
    | None => Stuck
    end
  | _ => Stuck
  end.

(** [o.key = v]; the value of an assignment is the assigned value. *)
Definition putV (fuel : nat) (o : value) (key : string) (v : value) : M value := fun s =>
  match o with
  | VUndef | VNull => Throw TypeError s
  | VRef l =>
    match heap s !! l with
    | Some (Plain props) =>
      Ret v (with_heap (<[l := Plain (<[key := v]> props)]> (heap s)) s)
    | Some (Proxy target) =>
      (let* _ := baseHandler_set fuel target key v l in ret v) s
    | None => Stuck
    end
  | _ => Stuck
  end.

(** [delete o.key] *)
Definition deleteV (o : value) (key : string) : M value := fun s =>
  match o with
  | VUndef | VNull => Throw TypeError s
  | VRef l =>
    match heap s !! l with
    | Some (Plain props) =>
      Ret (VBool true) (with_heap (<[l := Plain (delete key props)]> (heap s)) s)
    | Some (Proxy target) => lift (baseHandler_deleteProperty target key) s
    | None => Stuck
    end
  | _ => Stuck
  end.

End Library.

(** A value is well-scoped in a store when the object it refers to exists. *)
Definition valid_val (s : state) (v : value) : bool :=
  match v with
  | VRef l => bool_decide (l < length (heap s))
  | VFun f => bool_decide (f < length (effects s))
  | _ => true
  end.

(** [{ k1: v1, ... }]: a fresh object; of a repeated key the last binding
    stands. *)
Definition new_object (props : list (string * value)) (s : state) : value * state :=
  (VRef (length (heap s)),
   with_heap (heap s ++ [Plain (list_to_map (reverse props))]) s).

(** ** The interpreter of host code *)

Fixpoint exec (fuel : nat) (e : expr) : M value :=
  match fuel with
  | 0 => fun _ => OutOfFuel
  | S n =>
    match e with
    | EVal v => fun s => if valid_val s v then Ret v s else Stuck
    | ENew props => fun s =>
        if forallb (fun kv => valid_val s kv.2) props
        then lift (new_object props) s else Stuck
    | EGet e key => let* o := exec n e in getV o key
    | ESet e key e' =>
        let* o := exec n e in
        let* v := exec n e' in
        putV (exec n) n o key v
    | EDelete e key => let* o := exec n e in deleteV o key
    | EReactive e => let* v := exec n e in lift (reactive v)
    | EEffect fn => effect (exec n) fn
    | ESeq e1 e2 => let* _ := exec n e1 in exec n e2
    | EIf c e1 e2 => let* b := exec n c in if truthy b then exec n e1 else exec n e2
    | EThrow e => let* v := exec n e in throw v
    | ETry e1 e2 => try_catch (exec n e1) (exec n e2)
    end
  end.

(** * Vocabulary of the properties *)

(** The store an execution ends in, when it ends. *)
Definition final {A} (r : outcome A) : option state :=
  match r with
  | Ret _ s | Throw _ s => Some s
  | OutOfFuel | Stuck => None
  end.

(** The calls [fn()] recorded between two stores. *)
Definition new_runs (s s' : state) : list (handle * nat) :=
  drop (length (runs s)) (runs s').

(** The effects whose run was started at nesting depth [d]. *)
Definition direct_runs (d : nat) (evs : list (handle * nat)) : list handle :=
  (filter (λ ev, ev.2 = d) evs).*1.

(** The runs that an operation started itself between [s] and [s']: the ones
    one level above the operation's own depth. The runs nested in them,
    started by the writes of the callbacks, lie deeper. *)
Definition own_runs (s s' : state) : list handle :=
  direct_runs (S (length (activeEffectStack s))) (new_runs s s').

(** Dependency sets are sets. *)
Definition deps_nodup (s : state) : Prop := ∀ o k, NoDup (deps_of s o k).

(** What every execution guarantees about the store it ends in. *)
Record extends (s s' : state) : Prop := Extends {
  ext_stack : activeEffectStack s' = activeEffectStack s;
  ext_runs : runs s' = runs s ++ new_runs s s';
  ext_deep : Forall (λ ev, length (activeEffectStack s) < ev.2) (new_runs s s');
  ext_deps : ∀ o k, deps_of s o k `prefix_of` deps_of s' o k;
  ext_nodup : deps_nodup s → deps_nodup s';
  ext_effects : effects s `prefix_of` effects s';
  ext_heap : length (heap s) ≤ length (heap s')
}.

(** The store in which [run] calls [fn]. *)
Definition entered (effect : handle) (s : state) : state :=
  note_run effect (push effect s).

(** ** Well-formed stores *)

(** The invariant of the heap and of the two identity registries: stored
    references point to existing objects, the registries are inverse to each
    other, the proxies of the heap are exactly the registered wrappers, and
    a wrapper wraps an ordinary object. *)
Record wf (s : state) : Prop := Wf {
  wf_closed : ∀ l props k v,
    heap s !! l = Some (Plain props) → props !! k = Some v → valid_val s v = true;
  wf_toProxy : ∀ t p, toProxy s !! t = Some p → toRaw s !! p = Some t;
  wf_toRaw : ∀ p t, toRaw s !! p = Some t →
    toProxy s !! t = Some p ∧ heap s !! p = Some (Proxy t) ∧
    ∃ props, heap s !! t = Some (Plain props);
  wf_proxy : ∀ p t, heap s !! p = Some (Proxy t) → toRaw s !! p = Some t
}.

Definition wf_out {A} (ok : state → A → Prop) (r : outcome A) : Prop :=
  match r with
  | Ret a s' => wf s' ∧ ok s' a
  | Throw _ s' => wf s'
  | OutOfFuel | Stuck => True
  end.

Definition wf_val (r : outcome value) : Prop :=
  wf_out (λ s v, valid_val s v = true) r.

Definition wf_unit (r : outcome unit) : Prop := wf_out (λ _ _, True) r.

(** ** Scenarios *)

(** The store an execution stopped in (the empty script's store when it did
    not stop). *)
Definition store_after (r : outcome value) : state :=
  match r with
  | Ret _ s | Throw _ s => s
  | OutOfFuel | Stuck => init []
  end.

Definition num (x : float) : expr := EVal (VNum x).

(** [o = { a: 1 }] at address 0. *)
Definition heap_a : list cell := [Plain {["a" := VNum 1]}].

(** [reactive(o)] for the object at address [l]. *)
Definition wrap (l : loc) : expr := EReactive (EVal (VRef l)).

(** [effect(() => reactive(o).a)] *)
Definition reader_a : expr := EEffect (EGet (wrap 0) "a").

(** [try { effect(() => { reactive(o).a; throw "boom" }) } catch {}] *)
Definition thrower_a : expr :=
  ETry (EEffect (ESeq (EGet (wrap 0) "a") (EThrow (EVal (VStr "boom")))))
       (EVal VUndef).

(** Store after registering, in this order, a computation that reads
    [reactive(o).a] and then throws, and one that only reads it. *)
Definition store_thrower_reader : state :=
  store_after (exec 9 (ESeq thrower_a reader_a) (init heap_a)).

(** Store after registering two computations that read [reactive(o).a]. *)
Definition store_two_readers : state :=
  store_after (exec 9 (ESeq reader_a reader_a) (init heap_a)).

(** Store after registering one computation that reads [reactive(o).a]. *)
Definition store_reader : state := store_after (exec 9 reader_a (init heap_a)).

(** [o = { nested: { x: 1 } }]: the inner object at address 0, [o] at 1. *)
Definition heap_nested : list cell :=
  [Plain {["x" := VNum 1]}; Plain {["nested" := VRef 0]}].

(** [effect(() => reactive(o).nested.x)] *)
Definition reader_nested : expr := EEffect (EGet (EGet (wrap 1) "nested") "x").

(** [reactive(o).nested.x = 2] *)
Definition write_nested : expr := ESet (EGet (wrap 1) "nested") "x" (num 2).

Definition store_reader_nested : state :=
  store_after (exec 9 reader_nested (init heap_nested)).

(** [try { effect(() => { reactive(o).b; throw "boom" }) } catch {}] *)
Definition thrower_b : expr :=
  ETry (EEffect (ESeq (EGet (wrap 0) "b") (EThrow (EVal (VStr "boom")))))
       (EVal VUndef).

(** [effect(() => reactive(o).b)] *)
Definition reader_b : expr := EEffect (EGet (wrap 0) "b").

Definition store_thrower_reader_b : state :=
  store_after (exec 9 (ESeq thrower_b reader_b) (init heap_a)).

(** The store at the read of [.b] in the first run of [reader_b]: the
    function object 0 exists and is on the stack, and [o] has just been
    wrapped by the callback. *)
Definition store_reading_b : state :=
  (reactive (VRef 0) (entered 0 (with_effects [EGet (wrap 0) "b"] (init heap_a)))).2.

(** ** Inherited members *)

(** The property names of [Object.prototype], which every record inherits
    and which the store does not represent. A read of one of them that the
    record does not own yields the inherited member, not [undefined];
    ["__proto__"] is an accessor, so a write of it runs the inherited setter
    and defines no own property; and [hasKey] calls whatever the record holds
    under ["hasOwnProperty"]. *)
Definition Object_prototype_keys : list string :=
  ["constructor"; "__defineGetter__"; "__defineSetter__"; "hasOwnProperty";
   "__lookupGetter__"; "__lookupSetter__"; "isPrototypeOf";
   "propertyIsEnumerable"; "toString"; "valueOf"; "__proto__";
   "toLocaleString"].

(** ** Fuel *)

(** [m'] gives every result that [m] gives without running out of fuel. *)
Definition refines {A} (m m' : M A) : Prop :=
  ∀ s, m s ≠ OutOfFuel → m' s = m s.

(** * Proofs *)

(** ** Lists of runs *)

Lemma new_runs_refl s : new_runs s s = [].
Proof. unfold new_runs. by rewrite drop_all. Qed.

Lemma new_runs_app s s' evs : runs s' = runs s ++ evs → new_runs s s' = evs.
Proof. intros E. unfold new_runs. rewrite E. by rewrite drop_app_length. Qed.

Lemma direct_runs_app d a b : direct_runs d (a ++ b) = direct_runs d a ++ direct_runs d b.
Proof. unfold direct_runs. by rewrite filter_app, fmap_app. Qed.

Lemma direct_runs_deeper d evs :
  Forall (λ ev, d < ev.2) evs → direct_runs d evs = [].
Proof.
  unfold direct_runs. induction 1 as [|ev evs Hev _ IH]; [done|].
  rewrite filter_cons_False by lia. exact IH.
Qed.

Lemma direct_runs_here d h evs :
  direct_runs d ((h, d) :: evs) = h :: direct_runs d evs.
Proof. unfold direct_runs. by rewrite filter_cons_True. Qed.

(** ** [extends] is a preorder *)

Lemma extends_refl s : extends s s.
Proof.
  split; rewrite ?new_runs_refl; try done.
  by rewrite app_nil_r.
Qed.

Lemma new_runs_trans s1 s2 s3 :
  extends s1 s2 → extends s2 s3 → new_runs s1 s3 = new_runs s1 s2 ++ new_runs s2 s3.
Proof.
  intros H12 H23. apply new_runs_app.
  rewrite (ext_runs _ _ H23), (ext_runs _ _ H12). by rewrite app_assoc.
Qed.

Lemma extends_trans s1 s2 s3 : extends s1 s2 → extends s2 s3 → extends s1 s3.
Proof.
  intros H12 H23. pose proof (new_runs_trans _ _ _ H12 H23) as E. split.
  - by rewrite (ext_stack _ _ H23), (ext_stack _ _ H12).
  - rewrite E, app_assoc, <- (ext_runs _ _ H12). apply (ext_runs _ _ H23).
  - rewrite E. apply Forall_app. split; [apply (ext_deep _ _ H12)|].
    rewrite <- (ext_stack _ _ H12). apply (ext_deep _ _ H23).
  - intros o k. etrans; [apply (ext_deps _ _ H12)|apply (ext_deps _ _ H23)].
  - intros Hn. apply (ext_nodup _ _ H23), (ext_nodup _ _ H12), Hn.
  - etrans; [apply (ext_effects _ _ H12)|apply (ext_effects _ _ H23)].
  - etrans; [apply (ext_heap _ _ H12)|apply (ext_heap _ _ H23)].
Qed.

Lemma own_runs_trans s1 s2 s3 :
  extends s1 s2 → extends s2 s3 → own_runs s1 s3 = own_runs s1 s2 ++ own_runs s2 s3.
Proof.
  intros H12 H23. unfold own_runs.
  rewrite (new_runs_trans _ _ _ H12 H23), direct_runs_app.
  by rewrite (ext_stack _ _ H12).
Qed.

(** A step that leaves the stack, the history, the dependency graph and the
    function table alone. *)
Lemma extends_quiet s s' :
  activeEffectStack s' = activeEffectStack s →
  runs s' = runs s →
  targetMap s' = targetMap s →
  effects s' = effects s →
  length (heap s) ≤ length (heap s') →
  extends s s'.
Proof.
  intros Hst Hr Ht He Hh.
  assert (Hd : ∀ o k, deps_of s' o k = deps_of s o k)
    by (intros; unfold deps_of; by rewrite Ht).
  assert (Hn : new_runs s s' = [])
    by (unfold new_runs; rewrite Hr; apply drop_all).
  split; rewrite ?Hn; try done.
  - by rewrite app_nil_r.
  - intros o k. by rewrite Hd.
  - intros H o k. rewrite Hd. apply H.
  - by rewrite He.
Qed.

(** Heap updates in place and allocations keep the heap's length or grow it. *)
Ltac heap_grows :=
  simpl; rewrite ?length_insert, ?length_app; simpl; lia.

Lemma own_runs_quiet s s' : extends s s' → new_runs s s' = [] → own_runs s s' = [].
Proof. intros _ E. unfold own_runs. by rewrite E. Qed.

(** ** [track] *)

Lemma deps_of_track o k s o' k' :
  deps_of (track o k s) o' k' =
    if decide (o = o' ∧ k = k') then
      match last (activeEffectStack s) with
      | Some h =>
        if bool_decide (h ∈ deps_of s o k) then deps_of s o k
        else deps_of s o k ++ [h]
      | None => deps_of s o k
      end
    else deps_of s o' k'.
Proof.
  unfold track. destruct (last (activeEffectStack s)) as [h|] eqn:El.
  - unfold deps_of at 1. simpl.
    destruct (decide (o = o')) as [->|Ho].
    + rewrite lookup_insert_eq. simpl.
      destruct (decide (k = k')) as [->|Hk].
      * rewrite lookup_insert_eq. simpl. rewrite decide_True by done. done.
      * rewrite lookup_insert_ne by done. rewrite decide_False by (intros [? ?]; done). done.
    + rewrite lookup_insert_ne by done. rewrite decide_False by (intros [? ?]; done). done.
  - case_decide as H; [|done]. by destruct H as [-> ->].
Qed.

Lemma track_stack o k s : activeEffectStack (track o k s) = activeEffectStack s.
Proof. unfold track. by destruct (last _). Qed.

Lemma track_runs o k s : runs (track o k s) = runs s.
Proof. unfold track. by destruct (last _). Qed.

Lemma track_effects o k s : effects (track o k s) = effects s.
Proof. unfold track. by destruct (last _). Qed.

Lemma track_heap o k s : heap (track o k s) = heap s.
Proof. unfold track. by destruct (last _). Qed.

Lemma track_toProxy o k s : toProxy (track o k s) = toProxy s.
Proof. unfold track. by destruct (last _). Qed.

Lemma track_toRaw o k s : toRaw (track o k s) = toRaw s.
Proof. unfold track. by destruct (last _). Qed.

Lemma track_extends o k s : extends s (track o k s).
Proof.
  assert (Hn : new_runs s (track o k s) = [])
    by (unfold new_runs; rewrite track_runs; apply drop_all).
  split; rewrite ?Hn.
  - apply track_stack.
  - by rewrite track_runs, app_nil_r.
  - done.
  - intros o' k'. rewrite deps_of_track.
    case_decide as H; [destruct H as [Ho Hk]; subst o' k'|done].
    destruct (last _); [|done]. case_bool_decide; [done|].
    by apply prefix_app_r.
  - intros Hnd o' k'. rewrite deps_of_track.
    case_decide as H; [destruct H as [Ho Hk]; subst o' k'|apply Hnd].
    destruct (last _) as [h|]; [|apply Hnd]. case_bool_decide as Hin; [apply Hnd|].
    apply NoDup_app. split_and!; [apply Hnd| |apply NoDup_singleton].
    intros x Hx ->%list_elem_of_singleton. done.
  - by rewrite track_effects.
  - by rewrite track_heap.
Qed.

(** A read made while [h] is running leaves [h] in the dependency set. *)
Lemma track_records o k s h :
  last (activeEffectStack s) = Some h → h ∈ deps_of (track o k s) o k.
Proof.
  intros El. rewrite deps_of_track, decide_True, El by done.
  case_bool_decide; [done|]. apply elem_of_app. right. by apply list_elem_of_singleton.
Qed.


(** ** [reactive] and the traps that call no user code *)

Lemma reactive_quiet v s w s' :
  reactive v s = (w, s') →
  activeEffectStack s' = activeEffectStack s ∧ runs s' = runs s ∧
  targetMap s' = targetMap s ∧ effects s' = effects s ∧ console s' = console s ∧
  length (heap s) ≤ length (heap s').
Proof.
  unfold reactive, createReactiveObject. intros E.
  destruct (negb (isObject v)); [by simplify_eq|].
  destruct v; try by simplify_eq.
  destruct (toProxy s !! l); [by simplify_eq|].
  case_bool_decide; simplify_eq; [done|].
  split_and!; try done. heap_grows.
Qed.

Lemma reactive_extends v s w s' : reactive v s = (w, s') → extends s s'.
Proof. intros (?&?&?&?&?&?)%reactive_quiet. by apply extends_quiet. Qed.

Lemma baseHandler_get_extends target key receiver s v s' :
  baseHandler_get target key receiver s = (v, s') → extends s s'.
Proof.
  unfold baseHandler_get. intros E.
  apply (extends_trans _ (track target key s)); [apply track_extends|].
  destruct (isObject _); [by eapply reactive_extends|]. simplify_eq. apply extends_refl.
Qed.

Lemma baseHandler_get_new_runs target key receiver s v s' :
  baseHandler_get target key receiver s = (v, s') → runs s' = runs s.
Proof.
  unfold baseHandler_get. intros E.
  destruct (isObject _).
  - apply reactive_quiet in E as (_&->&_). apply track_runs.
  - simplify_eq. apply track_runs.
Qed.

Lemma Reflect_set_extends target key v s : extends s (Reflect_set target key v s).
Proof. apply extends_quiet; try done. heap_grows. Qed.

Lemma baseHandler_deleteProperty_extends target key s v s' :
  baseHandler_deleteProperty target key s = (v, s') → extends s s'.
Proof.
  unfold baseHandler_deleteProperty. intros [= _ <-].
  apply extends_quiet; try done. heap_grows.
Qed.

(** ** The functions that call user code *)

Section LibraryFacts.

Variable call : expr → M value.
Hypothesis call_extends : ∀ fn s s', final (call fn s) = Some s' → extends s s'.

Lemma run_unfold effect fn s :
  run call effect fn s =
    match call fn (entered effect s) with
    | Ret _ s' => Ret VUndef (pop s')
    | Throw v s' => Throw v (pop s')
    | OutOfFuel => OutOfFuel
    | Stuck => Stuck
    end.
Proof.
  unfold run, bind, try_finally, modify, ret, entered.
  by destruct (call fn _).
Qed.

Lemma run_extends effect fn s s' :
  final (run call effect fn s) = Some s' →
  extends s s' ∧ own_runs s s' = [effect].
Proof.
  rewrite run_unfold. intros Hf.
  assert (∃ s2, final (call fn (entered effect s)) = Some s2 ∧ s' = pop s2)
    as (s2 & Hc & ->).
  { destruct (call fn _); simplify_eq/=; eauto. }
  apply call_extends in Hc as [Hst Hr Hd Hdeps Hnd Hef Hhp].
  set (d := length (activeEffectStack s)) in *.
  assert (Hlen : length (activeEffectStack (entered effect s)) = S d)
    by (simpl; rewrite length_app; simpl; lia).
  rewrite Hlen in Hd.
  assert (Hn : new_runs s (pop s2) =
               (effect, S d) :: new_runs (entered effect s) s2).
  { apply new_runs_app. simpl. rewrite Hr. simpl.
    rewrite <- app_assoc. simpl. do 3 f_equal.
    rewrite length_app. simpl. unfold d. lia. }
  split.
  - split; rewrite ?Hn.
    + simpl. rewrite Hst. simpl. apply removelast_last.
    + simpl. rewrite Hr. simpl. rewrite <- app_assoc. simpl. do 3 f_equal.
      rewrite length_app. simpl. unfold d. lia.
    + constructor; [simpl; lia|].
      eapply Forall_impl; [exact Hd|]. simpl. intros; lia.
    + exact Hdeps.
    + exact Hnd.
    + exact Hef.
    + exact Hhp.
  - unfold own_runs. fold d. rewrite Hn, direct_runs_here.
    by rewrite direct_runs_deeper.
Qed.

Lemma invoke_extends effect s s' :
  final (invoke call effect s) = Some s' →
  extends s s' ∧ own_runs s s' = [effect].
Proof.
  unfold invoke. destruct (effects s !! effect); [|done]. apply run_extends.
Qed.

Lemma createReactiveEffect_extends fn s : extends s (createReactiveEffect fn s).2.
Proof.
  simpl.
  assert (Hn : new_runs s (with_effects (effects s ++ [fn]) s) = [])
    by (unfold new_runs; simpl; apply drop_all).
  split; rewrite ?Hn; try done.
  - simpl. by rewrite app_nil_r.
  - simpl. by apply prefix_app_r.
Qed.

Lemma effect_extends fn s s' :
  final (effect call fn s) = Some s' →
  extends s s' ∧ own_runs s s' = [length (effects s)].
Proof.
  unfold effect, bind, lift, ret. simpl. intros Hf.
  set (s1 := with_effects (effects s ++ [fn]) s) in *.
  assert (final (invoke call (length (effects s)) s1) = Some s') as Hi.
  { destruct (invoke call _ s1); simplify_eq/=; done. }
  apply invoke_extends in Hi as [He Ho].
  pose proof (createReactiveEffect_extends fn s) as H1. simpl in H1. fold s1 in H1.
  split; [by eapply extends_trans|].
  rewrite (own_runs_trans _ _ _ H1 He), Ho.
  unfold own_runs at 1. unfold new_runs. simpl. by rewrite drop_all.
Qed.

(** The replay: every terminated [forEach] has started the effects of the
    set, in the order of the set, each at most once; one that returned has
    started all of them, those added on the way included. *)
Lemma forEach_extends fuel target key : ∀ i s r s',
  forEach call fuel target key i s = r →
  final r = Some s' →
  extends s s' ∧
  own_runs s s' `prefix_of` drop i (deps_of s' target key) ∧
  (r = Ret tt s' → own_runs s s' = drop i (deps_of s' target key)).
Proof.
  induction fuel as [|fuel IH]; intros i s r s' Hr Hf.
  - simpl in Hr. destruct (deps_of s target key !! i) eqn:El.
    + subst r. done.
    + subst r. simpl in Hf. simplify_eq.
      apply lookup_ge_None in El.
      unfold own_runs. rewrite new_runs_refl, drop_ge by done.
      split_and!; [apply extends_refl|done|done].
  - simpl in Hr. destruct (deps_of s target key !! i) as [h|] eqn:El.
    + unfold bind in Hr.
      destruct (invoke call h s) as [u s1|v s1| |] eqn:Ei;
        try (subst r; done).
      * assert (final (invoke call h s) = Some s1) as Hi by (by rewrite Ei).
        apply invoke_extends in Hi as [H1 Ho1].
        destruct (IH _ _ _ _ Hr Hf) as (H2 & Hp & Heq).
        assert (Hd : drop i (deps_of s' target key) =
                     h :: drop (S i) (deps_of s' target key)).
        { apply drop_S.
          pose proof (extends_trans _ _ _ H1 H2) as H3.
          eapply prefix_lookup_Some; [exact El|apply (ext_deps _ _ H3)]. }
        rewrite (own_runs_trans _ _ _ H1 H2), Ho1, Hd. simpl.
        split_and!.
        -- by eapply extends_trans.
        -- by apply prefix_cons.
        -- intros E. by rewrite Heq.
      * subst r. simpl in Hf. simplify_eq.
        assert (final (invoke call h s) = Some s') as Hi by (by rewrite Ei).
        apply invoke_extends in Hi as [H1 Ho1].
        split_and!; [done| |done].
        rewrite Ho1.
        erewrite drop_S;
          [|eapply prefix_lookup_Some; [exact El|apply (ext_deps _ _ H1)]].
        apply prefix_cons, prefix_nil.
    + subst r. simpl in Hf. simplify_eq.
      apply lookup_ge_None in El.
      unfold own_runs. rewrite new_runs_refl, drop_ge by done.
      split_and!; [apply extends_refl|done|done].
Qed.

Lemma trigger_extends fuel target type key s r s' :
  trigger call fuel target type key s = r →
  final r = Some s' →
  extends s s' ∧
  own_runs s s' `prefix_of` deps_of s' target key ∧
  (r = Ret tt s' → own_runs s s' = deps_of s' target key).
Proof.
  unfold trigger. intros Hr Hf.
  assert (Hnone : deps_of s target key = [] → r = Ret tt s →
    extends s s' ∧ own_runs s s' `prefix_of` deps_of s' target key ∧
    (r = Ret tt s' → own_runs s s' = deps_of s' target key)).
  { intros Hd ->. simpl in Hf. simplify_eq.
    unfold own_runs. rewrite new_runs_refl, Hd.
    split_and!; [apply extends_refl|done|done]. }
  destruct (targetMap s !! target) as [depsMap|] eqn:Et.
  - destruct (depsMap !! key) as [deps|] eqn:Ek.
    + apply (forEach_extends _ _ _ 0 _ _ _ Hr Hf).
    + apply Hnone; [|done]. unfold deps_of. by rewrite Et; simpl; rewrite Ek.
  - apply Hnone; [|done]. unfold deps_of. by rewrite Et.
Qed.

End LibraryFacts.

Section TrapFacts.

Variable call : expr → M value.
Hypothesis call_extends : ∀ fn s s', final (call fn s) = Some s' → extends s s'.

(** The mutation type only labels the call. *)
Lemma trigger_type fuel target type type' key s :
  trigger call fuel target type key s = trigger call fuel target type' key s.
Proof. done. Qed.

Lemma own_runs_after_write target key v s s' :
  extends (Reflect_set target key v s) s' →
  own_runs s s' = own_runs (Reflect_set target key v s) s'.
Proof.
  intros H. rewrite (own_runs_trans _ _ _ (Reflect_set_extends target key v s) H).
  unfold own_runs at 1, new_runs. simpl. by rewrite drop_all.
Qed.

(** What the [set] trap does, by cases on its two tests. *)
Lemma baseHandler_set_unfold fuel target key v receiver s :
  baseHandler_set call fuel target key v receiver s =
    if negb (hasKey s target key) || strict_neq (Reflect_get s target key) v
    then (let* _ := trigger call fuel target "set" key in ret (VBool true))
           (Reflect_set target key v s)
    else Ret (VBool true) (Reflect_set target key v s).
Proof.
  unfold baseHandler_set. destruct (hasKey s target key); simpl; [|done].
  by destruct (strict_neq _ _).
Qed.

Lemma baseHandler_set_extends fuel target key v receiver s s' :
  final (baseHandler_set call fuel target key v receiver s) = Some s' →
  extends s s' ∧ own_runs s s' `prefix_of` deps_of s' target key.
Proof.
  rewrite baseHandler_set_unfold.
  destruct (_ || _).
  - unfold bind, ret.
    destruct (trigger call fuel target "set" key _) as [[] s2|w s2| |] eqn:Et;
      simpl; intros Hf; simplify_eq.
    + destruct (trigger_extends call call_extends _ _ _ _ _ _ s' Et eq_refl)
        as (He & Hp & _).
      rewrite (own_runs_after_write _ _ _ _ _ He).
      split; [|done]. eapply extends_trans; [apply Reflect_set_extends|done].
    + destruct (trigger_extends call call_extends _ _ _ _ _ _ s' Et eq_refl)
        as (He & Hp & _).
      rewrite (own_runs_after_write _ _ _ _ _ He).
      split; [|done]. eapply extends_trans; [apply Reflect_set_extends|done].
  - simpl. intros [= <-]. split; [apply Reflect_set_extends|].
    rewrite own_runs_quiet; [apply prefix_nil|apply Reflect_set_extends|].
    unfold new_runs. simpl. apply drop_all.
Qed.

(** A write that adds the key or changes its value, and returns, has
    started every effect of the dependency set. *)
Lemma baseHandler_set_replays fuel target key v receiver s r s' :
  hasKey s target key = false ∨ strict_neq (Reflect_get s target key) v = true →
  baseHandler_set call fuel target key v receiver s = Ret r s' →
  own_runs s s' = deps_of s' target key.
Proof.
  intros Hc. rewrite baseHandler_set_unfold.
  replace (negb (hasKey s target key) || strict_neq (Reflect_get s target key) v)
    with true by (destruct Hc as [-> | ->]; [done|by rewrite orb_true_r]).
  unfold bind, ret.
  destruct (trigger call fuel target "set" key _) as [[] s2|w s2| |] eqn:Et;
    intros Hf; simplify_eq.
  destruct (trigger_extends call call_extends _ _ _ _ _ _ s' Et eq_refl)
    as (He & _ & Heq).
  rewrite (own_runs_after_write _ _ _ _ _ He). by apply Heq.
Qed.

(** A write that leaves an own key at a [===] value starts nothing. *)
Lemma baseHandler_set_same fuel target key v receiver s :
  hasKey s target key = true →
  strict_neq (Reflect_get s target key) v = false →
  baseHandler_set call fuel target key v receiver s =
    Ret (VBool true) (Reflect_set target key v s).
Proof. intros H1 H2. by rewrite baseHandler_set_unfold, H1, H2. Qed.

Lemma getV_extends o key s s' : final (getV o key s) = Some s' → extends s s'.
Proof.
  unfold getV. destruct o; try done; try (intros [= <-]; apply extends_refl).
  destruct (heap s !! l) as [[props|target]|]; [| |done].
  - intros [= <-]. apply extends_refl.
  - unfold lift. destruct (baseHandler_get _ _ _ _) as [w s1] eqn:E.
    intros [= <-]. by eapply baseHandler_get_extends.
Qed.

Lemma putV_extends fuel o key v s s' :
  final (putV call fuel o key v s) = Some s' → extends s s'.
Proof.
  unfold putV. destruct o; try done; try (intros [= <-]; apply extends_refl).
  destruct (heap s !! l) as [[props|target]|]; [| |done].
  - intros [= <-]. apply extends_quiet; try done. heap_grows.
  - unfold bind, ret. intros Hf.
    apply (baseHandler_set_extends fuel target key v l).
    destruct (baseHandler_set _ _ _ _ _ _ _); simplify_eq/=; done.
Qed.

Lemma deleteV_extends o key s s' : final (deleteV o key s) = Some s' → extends s s'.
Proof.
  unfold deleteV. destruct o; try done; try (intros [= <-]; apply extends_refl).
  destruct (heap s !! l) as [[props|target]|]; [| |done].
  - intros [= <-]. apply extends_quiet; try done. heap_grows.
  - unfold lift. simpl. intros [= <-]. apply extends_quiet; try done. heap_grows.
Qed.

End TrapFacts.

(** ** Every execution extends the store *)

Lemma bind_final {A B} (m : M A) (k : A → M B) s s' :
  final (bind m k s) = Some s' →
  (∃ v, m s = Throw v s') ∨ (∃ a s1, m s = Ret a s1 ∧ final (k a s1) = Some s').
Proof.
  unfold bind. destruct (m s) as [a s1|v s1| |]; simpl; intros Hf; simplify_eq; eauto.
Qed.

Lemma exec_extends fuel : ∀ e s s', final (exec fuel e s) = Some s' → extends s s'.
Proof.
  induction fuel as [|n IH]; [done|].
  assert (Hsub : ∀ e s r s1, exec n e s = r → final r = Some s1 → extends s s1)
    by (intros e s r s1 <-; apply IH).
  intros e s s' Hf. destruct e; simpl in Hf.
  - destruct (valid_val s v); simplify_eq/=. apply extends_refl.
  - destruct (forallb _ _); simplify_eq/=. apply extends_quiet; try done. heap_grows.
  - apply bind_final in Hf as [[v Hf]|(o & s1 & He & Hf)].
    + eapply Hsub; [exact Hf|done].
    + eapply extends_trans; [eapply Hsub; [exact He|done]|by eapply getV_extends].
  - apply bind_final in Hf as [[v Hf]|(o & s1 & He & Hf)];
      [eapply Hsub; [exact Hf|done]|].
    apply bind_final in Hf as [[v Hf]|(w & s2 & He' & Hf)].
    + eapply extends_trans; eapply Hsub; eauto.
    + eapply extends_trans; [eapply Hsub; [exact He|done]|].
      eapply extends_trans; [eapply Hsub; [exact He'|done]|].
      by eapply putV_extends.
  - apply bind_final in Hf as [[v Hf]|(o & s1 & He & Hf)].
    + eapply Hsub; [exact Hf|done].
    + eapply extends_trans; [eapply Hsub; [exact He|done]|by eapply deleteV_extends].
  - apply bind_final in Hf as [[v Hf]|(o & s1 & He & Hf)].
    + eapply Hsub; [exact Hf|done].
    + eapply extends_trans; [eapply Hsub; [exact He|done]|].
      unfold lift in Hf. destruct (reactive o s1) as [w s2] eqn:Er.
      simplify_eq/=. by eapply reactive_extends.
  - by apply (effect_extends _ IH) in Hf as [? _].
  - apply bind_final in Hf as [[v Hf]|(o & s1 & He & Hf)].
    + eapply Hsub; [exact Hf|done].
    + eapply extends_trans; [eapply Hsub; [exact He|done]|by apply IH in Hf].
  - apply bind_final in Hf as [[v Hf]|(o & s1 & He & Hf)].
    + eapply Hsub; [exact Hf|done].
    + eapply extends_trans; [eapply Hsub; [exact He|done]|].
      destruct (truthy o); by apply IH in Hf.
  - apply bind_final in Hf as [[v Hf]|(o & s1 & He & Hf)].
    + eapply Hsub; [exact Hf|done].
    + unfold throw in Hf. simplify_eq/=. eapply Hsub; [exact He|done].
  - unfold try_catch in Hf. destruct (exec n e1 s) as [a s1|v s1| |] eqn:E1;
      simplify_eq/=.
    + eapply Hsub; [exact E1|done].
    + eapply extends_trans; [eapply Hsub; [exact E1|done]|by apply IH in Hf].
Qed.

(** ** Well-formed stores *)

Lemma valid_val_mono s s' v :
  length (heap s) ≤ length (heap s') →
  length (effects s) ≤ length (effects s') →
  valid_val s v = true → valid_val s' v = true.
Proof.
  intros Hh He. destruct v; simpl; try done;
    rewrite !bool_decide_eq_true; lia.
Qed.

Lemma valid_val_ref s l : valid_val s (VRef l) = true ↔ is_Some (heap s !! l).
Proof. simpl. rewrite bool_decide_eq_true. symmetry. apply lookup_lt_is_Some. Qed.

(** The store of a script that has only built records so far. *)
Lemma wf_init h :
  (∀ l c, h !! l = Some c → ∃ props, c = Plain props ∧
     ∀ k v, props !! k = Some v → valid_val (init h) v = true) →
  wf (init h).
Proof.
  intros Hh. split; simpl; try done.
  - intros l props k v Hl Hk. destruct (Hh _ _ Hl) as (props' & [= <-] & Hv). eauto.
  - intros p t Hp. by destruct (Hh _ _ Hp) as (props & ? & _).
Qed.

(** A wrapper is never the raw side of another wrapper, and an ordinary
    object is never registered as a wrapper. *)
Lemma wf_proxy_unwrapped s p t :
  wf s → heap s !! p = Some (Proxy t) → toProxy s !! p = None.
Proof.
  intros Hwf Hp. destruct (toProxy s !! p) as [q|] eqn:E; [|done].
  apply (wf_toProxy _ Hwf), (wf_toRaw _ Hwf) in E as (_ & _ & props & E).
  congruence.
Qed.

Lemma wf_plain_not_wrapper s l props :
  wf s → heap s !! l = Some (Plain props) → toRaw s !! l = None.
Proof.
  intros Hwf Hl. destruct (toRaw s !! l) as [t|] eqn:E; [|done].
  apply (wf_toRaw _ Hwf) in E as (_ & E & _). congruence.
Qed.

(** At most one wrapper per raw object. *)
Lemma wf_wrapper_unique s p p' t :
  wf s → heap s !! p = Some (Proxy t) → heap s !! p' = Some (Proxy t) → p = p'.
Proof.
  intros Hwf H1%(wf_proxy _ Hwf) H2%(wf_proxy _ Hwf).
  apply (wf_toRaw _ Hwf) in H1 as (H1 & _), H2 as (H2 & _). congruence.
Qed.

(** Steps that touch neither the heap nor the registries. *)
Lemma wf_frame s s' :
  heap s' = heap s → toProxy s' = toProxy s → toRaw s' = toRaw s →
  length (effects s) ≤ length (effects s') →
  wf s → wf s'.
Proof.
  intros Hh Hp Hr He [H1 H2 H3 H4].
  split; rewrite ?Hh, ?Hp, ?Hr; try done.
  intros l props k v Hl Hk. eapply valid_val_mono; [| |by eapply H1]; [by rewrite Hh|done].
Qed.

(** Replacing the properties of an ordinary object. *)
Lemma wf_store s l props props' :
  wf s → heap s !! l = Some (Plain props) →
  (∀ k v, props' !! k = Some v → valid_val s v = true) →
  wf (with_heap (<[l := Plain props']> (heap s)) s).
Proof.
  intros [H1 H2 H3 H4] Hl Hv.
  assert (Hlt : l < length (heap s)) by (by eapply lookup_lt_Some).
  assert (Hlook : ∀ j, <[l := Plain props']> (heap s) !! j =
                       if decide (l = j) then Some (Plain props') else heap s !! j).
  { intros j. case_decide as E; [subst j; by apply list_lookup_insert_eq|].
    by apply list_lookup_insert_ne. }
  assert (Hval : ∀ v, valid_val s v = true →
                      valid_val (with_heap (<[l := Plain props']> (heap s)) s) v = true).
  { intros v. apply valid_val_mono; simpl; [by rewrite length_insert|done]. }
  split; simpl.
  - intros j props0 k v. rewrite Hlook. case_decide; intros Hj Hk.
    + simplify_eq. eauto.
    + eauto.
  - done.
  - intros p t Hp. destruct (H3 _ _ Hp) as (Ha & Hb & props0 & Hc).
    split_and!; [done| |].
    + rewrite Hlook. case_decide; [congruence|done].
    + rewrite Hlook. case_decide; eauto.
  - intros p t. rewrite Hlook. case_decide; [done|]. apply H4.
Qed.

(** Allocating an ordinary object. *)
Lemma wf_alloc s props :
  wf s → (∀ k v, props !! k = Some v → valid_val s v = true) →
  wf (with_heap (heap s ++ [Plain props]) s).
Proof.
  intros [H1 H2 H3 H4] Hv.
  assert (Hval : ∀ v, valid_val s v = true →
                      valid_val (with_heap (heap s ++ [Plain props]) s) v = true).
  { intros v. apply valid_val_mono; simpl; [rewrite length_app; lia|done]. }
  assert (Hlook : ∀ j c, (heap s ++ [Plain props]) !! j = Some c →
                         heap s !! j = Some c ∨ (j = length (heap s) ∧ c = Plain props)).
  { intros j c [?|[? Hj]]%lookup_app_Some; [by left|right].
    apply list_lookup_singleton_Some in Hj as [? ?]. split; [lia|done]. }
  split; simpl.
  - intros j props0 k v [Hj|[-> [= ->]]]%Hlook Hk; eauto.
  - done.
  - intros p t Hp. destruct (H3 _ _ Hp) as (Ha & Hb & props0 & Hc).
    split_and!; [done|by apply lookup_app_l_Some|].
    exists props0. by apply lookup_app_l_Some.
  - intros p t [Hj|[-> [=]]]%Hlook. by apply H4.
Qed.

(** ** [reactive] on well-formed stores *)

Lemma isObject_ref v : isObject v = true → ∃ l, v = VRef l.
Proof. destruct v; try done. eauto. Qed.

(** The three ways [createReactiveObject] treats an object. *)
Lemma reactive_cases t s :
  reactive (VRef t) s =
    match toProxy s !! t with
    | Some observed => (VRef observed, s)
    | None =>
      if bool_decide (is_Some (toRaw s !! t)) then (VRef t, s)
      else (VRef (length (heap s)),
            State (heap s ++ [Proxy t])
                  (<[t := length (heap s)]> (toProxy s))
                  (<[length (heap s) := t]> (toRaw s))
                  (activeEffectStack s) (targetMap s)
                  (effects s) (console s) (runs s))
    end.
Proof. done. Qed.

Lemma reactive_scalar v s : isObject v = false → reactive v s = (v, s).
Proof. unfold reactive, createReactiveObject. by intros ->. Qed.

Lemma reactive_wf v s w s' :
  wf s → valid_val s v = true → reactive v s = (w, s') →
  wf s' ∧ valid_val s' w = true.
Proof.
  intros Hwf Hv. destruct (isObject v) eqn:Hobj; [|rewrite reactive_scalar by done; by intros [= <- <-]].
  apply isObject_ref in Hobj as [t ->]. rewrite reactive_cases.
  destruct (toProxy s !! t) as [p|] eqn:Ep.
  { intros [= <- <-]. split; [done|].
    apply (wf_toProxy _ Hwf), (wf_toRaw _ Hwf) in Ep as (_ & Ep & _).
    apply valid_val_ref. eauto. }
  case_bool_decide as Er; [by intros [= <- <-]|].
  intros [= <- <-]. apply eq_None_not_Some in Er.
  apply valid_val_ref in Hv as [c Hc].
  assert (∃ props, heap s !! t = Some (Plain props)) as [props Ht].
  { destruct c as [props|t2]; [eauto|].
    apply (wf_proxy _ Hwf) in Hc. congruence. }
  clear c Hc. destruct Hwf as [H1 H2 H3 H4].
  set (p := length (heap s)).
  assert (Hfresh : heap s !! p = None) by (by apply lookup_ge_None).
  assert (Hlook : ∀ j c, (heap s ++ [Proxy t]) !! j = Some c →
                         heap s !! j = Some c ∨ (j = p ∧ c = Proxy t)).
  { intros j c [?|[? Hj]]%lookup_app_Some; [by left|right].
    apply list_lookup_singleton_Some in Hj as [? ?]. split; [unfold p; lia|done]. }
  split; [split; simpl|].
  - intros j props0 k v [Hj|[-> [=]]]%Hlook Hk.
    eapply valid_val_mono; [| |by eapply H1]; simpl; [rewrite length_app; lia|done].
  - intros t0 p0. destruct (decide (t = t0)) as [<-|Hne].
    + rewrite lookup_insert_eq. intros [= <-]. by rewrite lookup_insert_eq.
    + rewrite lookup_insert_ne by done. intros Hp.
      pose proof (H2 _ _ Hp) as Hr. destruct (H3 _ _ Hr) as (_ & Hc & _).
      rewrite lookup_insert_ne by congruence. done.
  - intros p0 t0. destruct (decide (p = p0)) as [<-|Hne].
    + rewrite lookup_insert_eq. intros [= <-]. rewrite lookup_insert_eq.
      split_and!; [done| |].
      * rewrite lookup_app_r by done. by rewrite Nat.sub_diag.
      * exists props. by apply lookup_app_l_Some.
    + rewrite lookup_insert_ne by done. intros Hr.
      destruct (H3 _ _ Hr) as (Ha & Hb & props0 & Hc).
      rewrite lookup_insert_ne by congruence.
      split_and!; [done|by apply lookup_app_l_Some|].
      exists props0. by apply lookup_app_l_Some.
  - intros p0 t0 [Hj|[-> [= ->]]]%Hlook.
    + rewrite lookup_insert_ne by congruence. by apply H4.
    + by rewrite lookup_insert_eq.
  - simpl. rewrite bool_decide_eq_true, length_app. simpl. lia.
Qed.

(** C4. Wrapping is idempotent with stable identity: wrapping an object
    [v] twice gives the same wrapper ([reactive(v) === reactive(v)]), and
    wrapping that wrapper gives it back ([reactive(reactive(v)) ===
    reactive(v)]); the second and third calls change nothing, and the wrapper
    is a proxy over an ordinary object, never over a proxy. *)
Theorem reactive_idempotent s v :
  wf s → valid_val s v = true → isObject v = true →
  ∃ w s1,
    reactive v s = (w, s1) ∧
    reactive v s1 = (w, s1) ∧
    reactive w s1 = (w, s1) ∧
    strict_eq (reactive v s1).1 (reactive v s).1 = true ∧
    strict_eq (reactive (reactive v s).1 (reactive v s).2).1 (reactive v s).1 = true ∧
    ∃ p t props, w = VRef p ∧ heap s1 !! p = Some (Proxy t) ∧
                 heap s1 !! t = Some (Plain props).
Proof.
  intros Hwf Hv Hobj. destruct (reactive v s) as [w s1] eqn:Er.
  destruct (reactive_wf _ _ _ _ Hwf Hv Er) as [Hwf1 Hw].
  exists w, s1. split; [done|].
  apply isObject_ref in Hobj as [l ->].
  assert (Hgoal : reactive (VRef l) s1 = (w, s1) ∧ reactive w s1 = (w, s1) ∧
    ∃ p t props, w = VRef p ∧ heap s1 !! p = Some (Proxy t) ∧
                 heap s1 !! t = Some (Plain props)).
  { rewrite reactive_cases in Er.
    destruct (toProxy s !! l) as [p|] eqn:Ep.
    - (* [l] is a raw object that already has its wrapper [p] *)
      simplify_eq. rewrite !reactive_cases, Ep.
      pose proof (wf_toProxy _ Hwf _ _ Ep) as Hr.
      destruct (wf_toRaw _ Hwf _ _ Hr) as (_ & Hp & props & Hl).
      rewrite (wf_proxy_unwrapped _ _ _ Hwf Hp), Hr.
      rewrite bool_decide_eq_true_2 by eauto.
      split_and!; [done|done|]. by exists p, l, props.
    - case_bool_decide as Hr.
      + (* [l] is itself a wrapper *)
        simplify_eq. rewrite !reactive_cases, Ep.
        rewrite bool_decide_eq_true_2 by done.
        destruct Hr as [t Hr].
        destruct (wf_toRaw _ Hwf _ _ Hr) as (_ & Hp & props & Hl).
        split_and!; [done|done|]. by exists l, t, props.
      + (* [l] is a raw object without a wrapper: one is made *)
        simplify_eq.
        set (p := length (heap s)) in *.
        assert (Hp : (heap s ++ [Proxy l]) !! p = Some (Proxy l)).
        { rewrite lookup_app_r by done. by rewrite Nat.sub_diag. }
        pose proof (wf_proxy_unwrapped _ p l Hwf1 Hp) as Hnone. simpl in Hnone.
        rewrite !reactive_cases. simpl. fold p.
        rewrite lookup_insert_eq, Hnone, lookup_insert_eq.
        rewrite bool_decide_eq_true_2 by eauto.
        split_and!; [done|done|].
        destruct (wf_toRaw _ Hwf1 p l) as (_ & _ & props & Hl);
          [simpl; by rewrite lookup_insert_eq|].
        by exists p, l, props. }
  destruct Hgoal as (H1 & H2 & p & t & props & -> & Hp & Ht).
  simpl. rewrite H1, H2. simpl. rewrite Nat.eqb_refl.
  split_and!; try done. by exists p, t, props.
Qed.

(** ** Well-formedness is an invariant of every execution *)

Lemma wf_target s p target :
  wf s → heap s !! p = Some (Proxy target) →
  ∃ props, heap s !! target = Some (Plain props).
Proof.
  intros Hwf Hp%(wf_proxy _ Hwf). by apply (wf_toRaw _ Hwf) in Hp as (_ & _ & ?).
Qed.

Lemma props_of_plain s l props : heap s !! l = Some (Plain props) → props_of s l = props.
Proof. unfold props_of. by intros ->. Qed.

Lemma track_wf o k s : wf s → wf (track o k s).
Proof.
  apply wf_frame; [apply track_heap|apply track_toProxy|apply track_toRaw|].
  by rewrite track_effects.
Qed.

Lemma Reflect_get_valid s target key : wf s → valid_val s (Reflect_get s target key) = true.
Proof.
  intros Hwf. unfold Reflect_get, props_of.
  destruct (heap s !! target) as [[props|?]|] eqn:El; try done.
  destruct (props !! key) as [v|] eqn:Ek; [|done]. simpl.
  by eapply (wf_closed _ Hwf).
Qed.

Lemma baseHandler_get_wf target key receiver s v s' :
  wf s → baseHandler_get target key receiver s = (v, s') →
  wf s' ∧ valid_val s' v = true.
Proof.
  intros Hwf. unfold baseHandler_get.
  pose proof (Reflect_get_valid s target key Hwf) as Hv.
  assert (Hv' : valid_val (track target key s) (Reflect_get s target key) = true).
  { eapply valid_val_mono; [| |exact Hv]; by rewrite ?track_heap, ?track_effects. }
  destruct (isObject _).
  - apply reactive_wf; [by apply track_wf|done].
  - intros [= <- <-]. split; [by apply track_wf|done].
Qed.

Lemma Reflect_set_wf target key v s props :
  wf s → heap s !! target = Some (Plain props) → valid_val s v = true →
  wf (Reflect_set target key v s).
Proof.
  intros Hwf Ht Hv. unfold Reflect_set. rewrite (props_of_plain _ _ _ Ht).
  eapply wf_store; [done|done|].
  intros k w. destruct (decide (key = k)) as [<-|Hne].
  - rewrite lookup_insert_eq. by intros [= <-].
  - rewrite lookup_insert_ne by done. by apply (wf_closed _ Hwf _ _ _ _ Ht).
Qed.

Lemma Reflect_deleteProperty_wf target key s props :
  wf s → heap s !! target = Some (Plain props) →
  wf (Reflect_deleteProperty target key s).
Proof.
  intros Hwf Ht. unfold Reflect_deleteProperty. rewrite (props_of_plain _ _ _ Ht).
  eapply wf_store; [done|done|].
  intros k w Hk. apply lookup_delete_Some in Hk as [_ Hk].
  by eapply (wf_closed _ Hwf).
Qed.

Section WfFacts.

Variable call : expr → M value.
Hypothesis call_extends : ∀ fn s s', final (call fn s) = Some s' → extends s s'.
Hypothesis call_wf : ∀ fn s, wf s → wf_val (call fn s).

Lemma run_wf effect fn s : wf s → wf_val (run call effect fn s).
Proof.
  intros Hwf. rewrite run_unfold.
  assert (Hwf1 : wf (entered effect s)) by (revert Hwf; by apply wf_frame).
  pose proof (call_wf fn _ Hwf1) as Hc.
  destruct (call fn _) as [a s2|v s2| |]; simpl in *; [| |done..].
  - destruct Hc as [Hc _]. split; [|done]. revert Hc. by apply wf_frame.
  - revert Hc. by apply wf_frame.
Qed.

Lemma invoke_wf effect s : wf s → wf_val (invoke call effect s).
Proof. intros Hwf. unfold invoke. destruct (_ !! _); [by apply run_wf|done]. Qed.

Lemma effect_wf fn s : wf s → wf_val (effect call fn s).
Proof.
  intros Hwf. unfold effect, bind, lift, ret. simpl.
  assert (Hwf1 : wf (with_effects (effects s ++ [fn]) s)).
  { revert Hwf. apply wf_frame; try done. simpl. rewrite length_app. lia. }
  pose proof (invoke_wf (length (effects s)) _ Hwf1) as Hi.
  destruct (invoke call _ _) as [a s2|v s2| |]; simpl in *; try done.
  by destruct Hi.
Qed.

Lemma forEach_wf fuel target key : ∀ i s, wf s → wf_unit (forEach call fuel target key i s).
Proof.
  induction fuel as [|fuel IH]; intros i s Hwf; simpl.
  - by destruct (_ !! _).
  - destruct (_ !! _) as [h|]; [|done]. unfold bind.
    pose proof (invoke_wf h _ Hwf) as Hi.
    destruct (invoke call h s) as [a s2|v s2| |]; simpl in *; try done.
    apply IH. by destruct Hi.
Qed.

Lemma trigger_wf fuel target type key s :
  wf s → wf_unit (trigger call fuel target type key s).
Proof.
  intros Hwf. unfold trigger.
  destruct (_ !! _) as [depsMap|]; [|done].
  destruct (_ !! _); [|done]. by apply forEach_wf.
Qed.

Lemma baseHandler_set_wf fuel target key v receiver s props s' :
  wf s → heap s !! target = Some (Plain props) → valid_val s v = true →
  final (baseHandler_set call fuel target key v receiver s) = Some s' → wf s'.
Proof.
  intros Hwf Ht Hv. rewrite baseHandler_set_unfold.
  pose proof (Reflect_set_wf _ key _ _ _ Hwf Ht Hv) as Hwf1.
  destruct (_ || _); [|by intros [= <-]].
  unfold bind, ret. pose proof (trigger_wf fuel target "set" key _ Hwf1) as Hr.
  destruct (trigger _ _ _ _ _ _) as [a s2|w s2| |]; simpl in *; intros; simplify_eq; try done.
  by destruct Hr.
Qed.

Lemma getV_wf o key s : wf s → wf_val (getV o key s).
Proof.
  intros Hwf. unfold getV. destruct o; try done.
  destruct (heap s !! l) as [[props|target]|] eqn:El; [| |done].
  - split; [done|]. destruct (props !! key) eqn:Ek; [|done]. simpl.
    by eapply (wf_closed _ Hwf).
  - unfold lift. destruct (baseHandler_get _ _ _ _) as [w s1] eqn:E.
    by eapply baseHandler_get_wf.
Qed.

Lemma putV_wf fuel o key v s :
  wf s → valid_val s v = true → wf_val (putV call fuel o key v s).
Proof.
  intros Hwf Hv.
  assert (Hstill : ∀ s', final (putV call fuel o key v s) = Some s' →
                         valid_val s' v = true).
  { intros s' [_ _ _ _ _ He Hh]%(putV_extends call call_extends).
    revert Hv. apply valid_val_mono; [done|by apply prefix_length]. }
  revert Hstill. unfold putV. destruct o; try done.
  destruct (heap s !! l) as [[props|target]|] eqn:El; [| |done].
  - intros Hstill. split; [|by apply Hstill].
    eapply wf_store; [done|done|].
    intros k w. destruct (decide (key = k)) as [<-|Hne].
    + rewrite lookup_insert_eq. by intros [= <-].
    + rewrite lookup_insert_ne by done. by apply (wf_closed _ Hwf _ _ _ _ El).
  - destruct (wf_target _ _ _ Hwf El) as [props Ht].
    pose proof (baseHandler_set_wf fuel target key v l s props) as Hs.
    unfold bind, ret.
    destruct (baseHandler_set _ _ _ _ _ _ _) as [a s2|w s2| |] eqn:Es;
      simpl; try done.
    + intros Hstill. split; [by eapply Hs|by apply Hstill].
    + intros _. by eapply Hs.
Qed.

Lemma deleteV_wf o key s : wf s → wf_val (deleteV o key s).
Proof.
  intros Hwf. unfold deleteV. destruct o; try done.
  destruct (heap s !! l) as [[props|target]|] eqn:El; [| |done].
  - split; [|done]. eapply wf_store; [done|done|].
    intros k w Hk. apply lookup_delete_Some in Hk as [_ Hk].
    by eapply (wf_closed _ Hwf).
  - destruct (wf_target _ _ _ Hwf El) as [props Ht].
    unfold lift. simpl. split; [|done].
    pose proof (Reflect_deleteProperty_wf _ key _ _ Hwf Ht) as Hd.
    revert Hd. by apply wf_frame.
Qed.

End WfFacts.

Lemma bind_wf {A} (ok : state → A → Prop) (m : M A) (k : A → M value) s :
  wf_out ok (m s) →
  (∀ a s1, m s = Ret a s1 → wf s1 → ok s1 a → wf_val (k a s1)) →
  wf_val (bind m k s).
Proof.
  unfold bind. destruct (m s) as [a s1|v s1| |]; simpl; try done.
  intros [? ?] Hk. by apply Hk.
Qed.

Lemma exec_wf fuel : ∀ e s, wf s → wf_val (exec fuel e s).
Proof.
  induction fuel as [|n IH]; [done|].
  pose proof (exec_extends n) as Hext.
  intros e s Hwf. destruct e; simpl.
  - by destruct (valid_val s v) eqn:Ev.
  - destruct (forallb _ _) eqn:Ef; [|done]. unfold lift. simpl. split.
    + apply wf_alloc; [done|]. intros k v Hk%elem_of_list_to_map_2.
      rewrite elem_of_reverse in Hk.
      rewrite forallb_forall in Ef. by apply (Ef (k, v)), list_elem_of_In.
    + rewrite bool_decide_eq_true, length_app. simpl. lia.
  - eapply bind_wf; [by apply IH|]. intros o s1 _ Hwf1 _. by apply getV_wf.
  - eapply bind_wf; [by apply IH|]. intros o s1 _ Hwf1 _.
    eapply bind_wf; [by apply IH|]. intros v s2 _ Hwf2 Hv. by apply putV_wf.
  - eapply bind_wf; [by apply IH|]. intros o s1 _ Hwf1 _. by apply deleteV_wf.
  - eapply bind_wf; [by apply IH|]. intros v s1 _ Hwf1 Hv.
    unfold lift. destruct (reactive v s1) as [w s2] eqn:Er.
    exact (reactive_wf _ _ _ _ Hwf1 Hv Er).
  - by apply effect_wf.
  - eapply bind_wf; [by apply IH|]. intros o s1 _ Hwf1 _. by apply IH.
  - eapply bind_wf; [by apply IH|]. intros o s1 _ Hwf1 _.
    destruct (truthy o); by apply IH.
  - eapply bind_wf; [by apply IH|]. by intros v s1 _ Hwf1 Hv.
  - unfold try_catch. pose proof (IH e1 s Hwf) as H1.
    destruct (exec n e1 s) as [a s1|v s1| |]; simpl in *; try done.
    by apply IH.
Qed.

(** ** More fuel changes no result *)

Lemma refines_refl {A} (m : M A) : refines m m.
Proof. by intros s _. Qed.

Lemma bind_refines {A B} (m m' : M A) (k k' : A → M B) :
  refines m m' → (∀ a, refines (k a) (k' a)) → refines (bind m k) (bind m' k').
Proof.
  intros Hm Hk s. unfold bind. intros Hs.
  rewrite Hm by (intros E; by rewrite E in Hs).
  destruct (m s) as [a s1|v s1| |]; try done. by apply Hk.
Qed.

Lemma try_catch_refines {A} (m m' h h' : M A) :
  refines m m' → refines h h' → refines (try_catch m h) (try_catch m' h').
Proof.
  intros Hm Hh s. unfold try_catch. intros Hs.
  rewrite Hm by (intros E; by rewrite E in Hs).
  destruct (m s) as [a s1|v s1| |]; try done. by apply Hh.
Qed.

Lemma try_finally_refines {A} (m m' : M A) fin :
  refines m m' → refines (try_finally m fin) (try_finally m' fin).
Proof.
  intros Hm s. unfold try_finally. intros Hs.
  by rewrite Hm by (intros E; by rewrite E in Hs).
Qed.

Section FuelFacts.

Variables call call' : expr → M value.
Hypothesis call_refines : ∀ fn, refines (call fn) (call' fn).

Lemma run_refines effect fn : refines (run call effect fn) (run call' effect fn).
Proof.
  unfold run. apply bind_refines; [|intros; apply refines_refl].
  apply try_finally_refines.
  apply bind_refines; [apply refines_refl|]. intros _.
  apply bind_refines; [apply refines_refl|]. intros _. apply call_refines.
Qed.

Lemma invoke_refines effect : refines (invoke call effect) (invoke call' effect).
Proof.
  intros s. unfold invoke. destruct (effects s !! effect); [|done]. apply run_refines.
Qed.

Lemma effect_refines fn : refines (effect call fn) (effect call' fn).
Proof.
  unfold effect. apply bind_refines; [apply refines_refl|]. intros h.
  apply bind_refines; [apply invoke_refines|]. intros; apply refines_refl.
Qed.

Lemma forEach_refines fuel : ∀ fuel' target key i,
  fuel ≤ fuel' →
  refines (forEach call fuel target key i) (forEach call' fuel' target key i).
Proof.
  induction fuel as [|fuel IH]; intros fuel' target key i Hle s; simpl.
  - destruct fuel'; simpl; by destruct (deps_of s target key !! i).
  - destruct fuel' as [|fuel']; [lia|]. simpl.
    destruct (deps_of s target key !! i); [|done].
    apply bind_refines; [apply invoke_refines|]. intros _. apply IH. lia.
Qed.

Lemma trigger_refines fuel fuel' target type key :
  fuel ≤ fuel' →
  refines (trigger call fuel target type key) (trigger call' fuel' target type key).
Proof.
  intros Hle s. unfold trigger.
  destruct (targetMap s !! target) as [depsMap|]; [|done].
  destruct (depsMap !! key); [|done]. by apply forEach_refines.
Qed.

Lemma baseHandler_set_refines fuel fuel' target key v receiver :
  fuel ≤ fuel' →
  refines (baseHandler_set call fuel target key v receiver)
          (baseHandler_set call' fuel' target key v receiver).
Proof.
  intros Hle s. rewrite !baseHandler_set_unfold.
  destruct (_ || _); [|done].
  apply bind_refines; [by apply trigger_refines|]. intros; apply refines_refl.
Qed.

Lemma putV_refines fuel fuel' o key v :
  fuel ≤ fuel' → refines (putV call fuel o key v) (putV call' fuel' o key v).
Proof.
  intros Hle s. unfold putV. destruct o; try done.
  destruct (heap s !! l) as [[props|target]|]; try done.
  apply bind_refines; [by apply baseHandler_set_refines|]. intros; apply refines_refl.
Qed.

End FuelFacts.

Lemma exec_refines n : ∀ m e, n ≤ m → refines (exec n e) (exec m e).
Proof.
  induction n as [|n IH]; intros m e Hle; [by intros s|].
  destruct m as [|m]; [lia|].
  assert (Hsub : ∀ e, refines (exec n e) (exec m e)) by (intros; apply IH; lia).
  destruct e; simpl.
  - apply refines_refl.
  - apply refines_refl.
  - apply bind_refines; [apply Hsub|]. intros; apply refines_refl.
  - apply bind_refines; [apply Hsub|]. intros o.
    apply bind_refines; [apply Hsub|]. intros v.
    apply putV_refines; [done|lia].
  - apply bind_refines; [apply Hsub|]. intros; apply refines_refl.
  - apply bind_refines; [apply Hsub|]. intros; apply refines_refl.
  - by apply effect_refines.
  - apply bind_refines; [apply Hsub|]. intros; apply Hsub.
  - apply bind_refines; [apply Hsub|]. intros b. destruct (truthy b); apply Hsub.
  - apply bind_refines; [apply Hsub|]. intros; apply refines_refl.
  - apply try_catch_refines; apply Hsub.
Qed.

(** A result obtained with some fuel is the result with any larger fuel. *)
Corollary exec_fuel_mono n m e s r :
  n ≤ m → exec n e s = r → r ≠ OutOfFuel → exec m e s = r.
Proof. intros Hle <- Hr. by apply exec_refines. Qed.

(** * The properties of the specification *)

(** ** The active-computation stack *)

(** C7. Every run pushes its handle before it calls the user callback, and
    pops it on every exit path: the callback [fn] runs in a store whose stack
    is the caller's stack with [effect] on top; when [fn] returns, [run]
    returns with the caller's stack restored; when [fn] throws, [run] throws
    the same value, unswallowed, with the caller's stack restored. *)
Theorem run_restores_stack n effect fn s :
  activeEffectStack (entered effect s) = activeEffectStack s ++ [effect] ∧
  last (activeEffectStack (entered effect s)) = Some effect ∧
  match exec n fn (entered effect s) with
  | Ret _ _ =>
    ∃ s', run (exec n) effect fn s = Ret VUndef s' ∧
          activeEffectStack s' = activeEffectStack s
  | Throw v _ =>
    ∃ s', run (exec n) effect fn s = Throw v s' ∧
          activeEffectStack s' = activeEffectStack s
  | OutOfFuel => run (exec n) effect fn s = OutOfFuel
  | Stuck => run (exec n) effect fn s = Stuck
  end.
Proof.
  split; [done|]. split; [simpl; apply last_snoc|].
  rewrite run_unfold.
  destruct (exec n fn (entered effect s)) as [a s2|v s2| |] eqn:E; try done.
  - exists (pop s2). split; [done|].
    assert (final (exec n fn (entered effect s)) = Some s2) as Hf by (by rewrite E).
    apply exec_extends in Hf as [Hst _ _ _ _ _ _].
    simpl. rewrite Hst. simpl. apply removelast_last.
  - exists (pop s2). split; [done|].
    assert (final (exec n fn (entered effect s)) = Some s2) as Hf by (by rewrite E).
    apply exec_extends in Hf as [Hst _ _ _ _ _ _].
    simpl. rewrite Hst. simpl. apply removelast_last.
Qed.

(** The discipline at work on a callback that reads and then throws. *)
Example run_restores_stack_on_throw :
  let s := store_after (exec 9 reader_a (init heap_a)) in
  let fn := ESeq (EGet (wrap 0) "a") (EThrow (EVal (VStr "boom"))) in
  ∃ s', run (exec 9) 7 fn s = Throw (VStr "boom") s' ∧
        activeEffectStack s' = activeEffectStack s.
Proof. eexists. split; [vm_compute; reflexivity|reflexivity]. Qed.

(** ** Registration *)

Lemma effect_unfold call fn s :
  effect call fn s =
    match call fn (entered (length (effects s)) (with_effects (effects s ++ [fn]) s)) with
    | Ret _ s' => Ret VUndef (pop s')
    | Throw v s' => Throw v (pop s')
    | OutOfFuel => OutOfFuel
    | Stuck => Stuck
    end.
Proof.
  unfold effect, bind, lift, ret, invoke. simpl.
  rewrite lookup_app_r by done. rewrite Nat.sub_diag. simpl.
  rewrite run_unfold. by destruct (call fn _).
Qed.

(** What a terminated [effect(fn)] has recorded: the new function object,
    its run first, and only runs nested in that one after it. *)
Lemma effect_history n fn s s' :
  let h := length (effects s) in
  let d := length (activeEffectStack s) in
  final (effect (exec n) fn s) = Some s' →
  effects s' !! h = Some fn ∧
  ∃ evs, new_runs s s' = (h, S d) :: evs ∧ Forall (λ ev, S d < ev.2) evs.
Proof.
  intros h d Hf.
  rewrite effect_unfold in Hf. fold h in Hf.
  set (s1 := entered h (with_effects (effects s ++ [fn]) s)) in *.
  assert (∃ s2, final (exec n fn s1) = Some s2 ∧ s' = pop s2) as (s2 & Hc & ->).
  { destruct (exec n fn s1); simplify_eq/=; eauto. }
  apply exec_extends in Hc as [_ Hr Hd _ _ Hfs _].
  split.
  - simpl. eapply prefix_lookup_Some; [|exact Hfs].
    simpl. by apply list_lookup_middle.
  - exists (new_runs s1 s2). split.
    + apply new_runs_app. simpl. rewrite Hr. simpl.
      rewrite <- app_assoc. simpl. do 3 f_equal.
      rewrite length_app. simpl. unfold d. lia.
    + eapply Forall_impl; [exact Hd|]. simpl. intros ev.
      rewrite length_app. simpl. unfold d. lia.
Qed.

(** C2. [effect(cb)] calls [cb] exactly once itself, at once and before it
    returns: the call [effect(cb)] is one call of [cb], made in the store
    where the new handle is registered and active, followed by the pop of
    that handle; and whenever [effect(cb)] ends (by return or by the
    exception of [cb]), the first run it has recorded is the run of the new
    handle, every other run recorded since is nested inside that one, and
    the new handle is the only effect that [effect] started itself. *)
Theorem effect_calls_callback_once n cb s :
  let h := length (effects s) in
  let d := length (activeEffectStack s) in
  exec (S n) (EEffect cb) s =
    match exec n cb (entered h (with_effects (effects s ++ [cb]) s)) with
    | Ret _ s' => Ret VUndef (pop s')
    | Throw v s' => Throw v (pop s')
    | OutOfFuel => OutOfFuel
    | Stuck => Stuck
    end ∧
  ∀ s', final (exec (S n) (EEffect cb) s) = Some s' →
    effects s' !! h = Some cb ∧
    (∃ evs, new_runs s s' = (h, S d) :: evs ∧ Forall (λ ev, S d < ev.2) evs) ∧
    own_runs s s' = [h].
Proof.
  intros h d. split; [apply effect_unfold|].
  simpl. intros s' Hf.
  pose proof (effect_extends _ (exec_extends n) _ _ _ Hf) as [_ Ho].
  destruct (effect_history n cb s s' Hf) as [He Hevs].
  by split_and!.
Qed.

Lemma effect_calls_callback_once_witness :
  let s' := store_after (exec 9 reader_a (init heap_a)) in
  effects s' !! 0 = Some (EGet (wrap 0) "a") ∧
  (∃ evs, new_runs (init heap_a) s' = (0, 1) :: evs ∧ Forall (λ ev, 1 < ev.2) evs) ∧
  own_runs (init heap_a) s' = [0].
Proof.
  exact (proj2 (effect_calls_callback_once 8 (EGet (wrap 0) "a") (init heap_a))
           (store_after (exec 9 reader_a (init heap_a)))
           ltac:(vm_compute; reflexivity)).
Defined.

(** C8, as stated, fails: [effect] has no [return] statement. Registering
    [() => reactive(o).a] creates the function object 0 and runs it, but the
    call evaluates to [undefined], which is not that function. *)
Lemma effect_returns_no_handle :
  ∃ s', exec 9 reader_a (init heap_a) = Ret VUndef s' ∧
        effects (init heap_a) !! 0 = None ∧
        effects s' !! 0 = Some (EGet (wrap 0) "a") ∧
        strict_eq VUndef (VFun 0) = false ∧
        typeof VUndef = "undefined".
Proof. eexists. split; [vm_compute; reflexivity|]. by split_and!. Qed.

(** C8, amended. For every callback, [effect(callback)] creates the
    effectHandle, a new function object closing over the callback, and runs
    it; when the call returns, its value is [undefined]: the handle is not
    handed to the caller. *)
Theorem effect_returns_undefined n cb s v s' :
  exec (S n) (EEffect cb) s = Ret v s' →
  v = VUndef ∧
  effects s !! length (effects s) = None ∧
  effects s' !! length (effects s) = Some cb.
Proof.
  intros Hr.
  assert (final (effect (exec n) cb s) = Some s') as Hf by (simpl in Hr; by rewrite Hr).
  destruct (effect_history n cb s s' Hf) as [He _].
  split_and!; [|by apply lookup_ge_None|done].
  simpl in Hr. rewrite effect_unfold in Hr.
  destruct (exec n cb _); by simplify_eq.
Qed.

Lemma effect_returns_undefined_witness :
  VUndef = VUndef ∧
  effects (init heap_a) !! length (effects (init heap_a)) = None ∧
  effects (store_after (exec 9 reader_a (init heap_a))) !!
    length (effects (init heap_a)) = Some (EGet (wrap 0) "a").
Proof.
  exact (effect_returns_undefined 8 (EGet (wrap 0) "a") (init heap_a) VUndef
           (store_after (exec 9 reader_a (init heap_a)))
           ltac:(vm_compute; reflexivity)).
Defined.

(** ** Wrapping *)

Lemma wf_heap_a : wf (init heap_a).
Proof.
  apply wf_init. intros [|l] c Hl; [|done]. simplify_eq/=.
  eexists. split; [done|].
  intros k v Hk. apply lookup_singleton_Some in Hk as [_ <-]. done.
Qed.

Lemma reactive_idempotent_witness :
  ∃ w s1,
    reactive (VRef 0) (init heap_a) = (w, s1) ∧
    reactive (VRef 0) s1 = (w, s1) ∧
    reactive w s1 = (w, s1) ∧
    strict_eq (reactive (VRef 0) s1).1 (reactive (VRef 0) (init heap_a)).1 = true ∧
    strict_eq (reactive (reactive (VRef 0) (init heap_a)).1
                        (reactive (VRef 0) (init heap_a)).2).1
              (reactive (VRef 0) (init heap_a)).1 = true ∧
    ∃ p t props, w = VRef p ∧ heap s1 !! p = Some (Proxy t) ∧
                 heap s1 !! t = Some (Plain props).
Proof.
  exact (reactive_idempotent (init heap_a) (VRef 0) wf_heap_a eq_refl eq_refl).
Defined.

(** ** Replay *)

(** The effect at the position where a replay starts is always started. *)
Lemma forEach_starts call fuel target key i s s' h :
  (∀ fn s s', final (call fn s) = Some s' → extends s s') →
  final (forEach call fuel target key i s) = Some s' →
  deps_of s target key !! i = Some h →
  ∃ rest, own_runs s s' = h :: rest.
Proof.
  intros Hcall Hf El. destruct fuel as [|fuel]; simpl in Hf; rewrite El in Hf; [done|].
  unfold bind in Hf.
  destruct (invoke call h s) as [u s1|v s1| |] eqn:Ei; try done.
  - assert (final (invoke call h s) = Some s1) as Hi by (by rewrite Ei).
    apply (invoke_extends _ Hcall) in Hi as [H1 Ho1].
    destruct (forEach_extends _ Hcall _ _ _ _ _ _ _ eq_refl Hf) as (H2 & _).
    rewrite (own_runs_trans _ _ _ H1 H2), Ho1. simpl. eauto.
  - simpl in Hf. simplify_eq.
    assert (final (invoke call h s) = Some s') as Hi by (by rewrite Ei).
    apply (invoke_extends _ Hcall) in Hi as [_ ->]. eauto.
Qed.

Lemma trigger_starts call fuel target type key s s' h rest :
  (∀ fn s s', final (call fn s) = Some s' → extends s s') →
  final (trigger call fuel target type key s) = Some s' →
  deps_of s target key = h :: rest →
  ∃ rest', own_runs s s' = h :: rest'.
Proof.
  intros Hcall Hf Hd. unfold trigger in Hf. unfold deps_of in Hd.
  destruct (targetMap s !! target) as [depsMap|] eqn:Et; [|done].
  simpl in Hd. destruct (depsMap !! key) as [deps|] eqn:Ek; [|done].
  simpl in Hd. subst deps.
  eapply forEach_starts; [done|done|].
  unfold deps_of. rewrite Et. simpl. by rewrite Ek.
Qed.

(** Without dependents a replay does nothing. *)
Lemma trigger_no_deps call fuel target type key s :
  deps_of s target key = [] → trigger call fuel target type key s = Ret tt s.
Proof.
  intros Hd. unfold trigger.
  destruct (targetMap s !! target) as [depsMap|] eqn:Et; [|done].
  destruct (depsMap !! key) as [deps|] eqn:Ek; [|done].
  destruct fuel; simpl; by rewrite Hd.
Qed.

(** A terminated replay has started something exactly when the key has
    dependents. *)
Lemma trigger_own_runs call fuel target type key s s' :
  (∀ fn s s', final (call fn s) = Some s' → extends s s') →
  final (trigger call fuel target type key s) = Some s' →
  own_runs s s' ≠ [] ↔ deps_of s target key ≠ [].
Proof.
  intros Hcall Hf. split.
  - intros Hne Hnil. apply Hne.
    rewrite (trigger_no_deps _ _ _ _ _ _ Hnil) in Hf. simpl in Hf. simplify_eq.
    unfold own_runs. by rewrite new_runs_refl.
  - destruct (deps_of s target key) as [|h rest] eqn:Ed; [done|]. intros _.
    by destruct (trigger_starts _ _ _ _ _ _ _ h rest Hcall Hf Ed) as [rest' ->].
Qed.

Lemma putV_proxy call fuel p target key v s :
  heap s !! p = Some (Proxy target) →
  putV call fuel (VRef p) key v s =
    (let* _ := baseHandler_set call fuel target key v p in ret v) s.
Proof. unfold putV. by intros ->. Qed.

Lemma getV_proxy p target key s :
  heap s !! p = Some (Proxy target) →
  getV (VRef p) key s = lift (baseHandler_get target key p) s.
Proof. unfold getV. by intros ->. Qed.

(** C1, as stated, fails when a dependent throws: both computations 0 and 1
    have read [(o, "a")], the write [reactive(o).a = 2] changes the value,
    computation 0 is re-run and throws, the exception leaves [forEach] and
    the write, and computation 1 is not run at all. *)
Lemma write_skips_dependents_after_a_throw :
  let s := store_thrower_reader in
  heap s !! 1 = Some (Proxy 0) ∧
  deps_of s 0 "a" = [0; 1] ∧
  strict_neq (Reflect_get s 0 "a") (VNum 2) = true ∧
  ∃ s', putV (exec 9) 9 (VRef 1) "a" (VNum 2) s = Throw (VStr "boom") s' ∧
        own_runs s s' = [0] ∧
        count_occ Nat.eq_dec (own_runs s s') 1 = 0.
Proof.
  split_and!; [vm_compute; reflexivity..|].
  eexists. split_and!; [vm_compute; reflexivity|reflexivity|reflexivity].
Qed.

(** C1, amended. For every write through an observable wrapper that adds
    key [k] to raw object [o] or changes its value ([!==]), and that returns
    normally, every computation that had read [(o, k)] while active (every
    member of the dependency set of [(o, k)] at the time of the write) is run
    by that write's replay, synchronously and exactly once; the computations
    the replay starts are exactly the members of the set when the write
    returns, in insertion order. (Runs nested deeper, started by writes of
    the replayed computations themselves, belong to those writes.) *)
Theorem write_replays_each_dependent_once n s p o k v r s' :
  heap s !! p = Some (Proxy o) →
  deps_nodup s →
  hasKey s o k = false ∨ strict_neq (Reflect_get s o k) v = true →
  putV (exec n) n (VRef p) k v s = Ret r s' →
  own_runs s s' = deps_of s' o k ∧
  ∀ h, h ∈ deps_of s o k → count_occ Nat.eq_dec (own_runs s s') h = 1.
Proof.
  intros Hp Hnd Hc Hr. rewrite (putV_proxy _ _ _ _ _ _ _ Hp) in Hr.
  unfold bind, ret in Hr.
  destruct (baseHandler_set _ _ _ _ _ _ _) as [a s2|w s2| |] eqn:Es; simplify_eq.
  pose proof (baseHandler_set_replays _ (exec_extends n) _ _ _ _ _ _ _ _ Hc Es) as Ho.
  pose proof (f_equal final Es) as Hf. simpl in Hf.
  apply (baseHandler_set_extends _ (exec_extends n)) in Hf as [He _].
  split; [done|]. intros h Hh. rewrite Ho.
  apply NoDup_count_occ'; [apply NoDup_ListNoDup, (ext_nodup _ _ He Hnd)|].
  apply list_elem_of_In. eapply elem_of_prefix; [done|apply (ext_deps _ _ He)].
Qed.

(** X12. However a write through the wrapper ends, by return or by the
    exception of a dependent, the computations it started are an initial
    segment of the dependency set in insertion order, each started once: an
    exception cuts the replay short, it never repeats, skips or reorders. *)
Lemma write_replay_in_order n s p o k v s' :
  heap s !! p = Some (Proxy o) →
  deps_nodup s →
  final (putV (exec n) n (VRef p) k v s) = Some s' →
  own_runs s s' `prefix_of` deps_of s' o k ∧ NoDup (own_runs s s').
Proof.
  intros Hp Hnd Hf. rewrite (putV_proxy _ _ _ _ _ _ _ Hp) in Hf.
  assert (final (baseHandler_set (exec n) n o k v p s) = Some s') as Hs.
  { unfold bind, ret in Hf.
    destruct (baseHandler_set _ _ _ _ _ _ _); simplify_eq/=; done. }
  apply (baseHandler_set_extends _ (exec_extends n)) in Hs as [He Hpre].
  split; [done|].
  destruct Hpre as [rest Hrest].
  pose proof (ext_nodup _ _ He Hnd o k) as Hn. rewrite Hrest in Hn.
  by apply NoDup_app in Hn as [? _].
Qed.

Lemma deps_nodup_init h : deps_nodup (init h).
Proof. intros o k. unfold deps_of. simpl. rewrite lookup_empty. simpl. apply NoDup_nil_2. Qed.

Lemma exec_nodup n e s s' :
  deps_nodup s → final (exec n e s) = Some s' → deps_nodup s'.
Proof. intros Hnd Hf. by apply (ext_nodup _ _ (exec_extends n e s s' Hf)). Qed.

Lemma write_replays_each_dependent_once_witness :
  let s := store_two_readers in
  let s' := store_after (putV (exec 9) 9 (VRef 1) "a" (VNum 2) s) in
  own_runs s s' = deps_of s' 0 "a" ∧
  ∀ h, h ∈ deps_of s 0 "a" → count_occ Nat.eq_dec (own_runs s s') h = 1.
Proof.
  apply (write_replays_each_dependent_once 9 store_two_readers 1 0 "a"
           (VNum 2) (VNum 2)).
  - vm_compute; reflexivity.
  - apply (exec_nodup 9 (ESeq reader_a reader_a) (init heap_a));
      [apply deps_nodup_init|vm_compute; reflexivity].
  - right. vm_compute; reflexivity.
  - vm_compute; reflexivity.
Defined.

(** ** The write guard *)

(** On an ordinary object the own-key test is a lookup in its record. *)
Lemma hasKey_plain s o props k :
  heap s !! o = Some (Plain props) →
  hasKey s o k = bool_decide (is_Some (props !! k)).
Proof. intros Ho. unfold hasKey. by rewrite (props_of_plain _ _ _ Ho). Qed.

(** X16. The guard of the set trap, on a record that does not own a key
    ["hasOwnProperty"] and for a key other than ["__proto__"]. When the
    record has the key with a value [===] the new one, the trap performs the
    write, returns [true], and no computation runs. When the record lacks the
    key (an add), or has it with a value [!==] the new one (a set), the trap
    performs the write and then replays: however it ends, the computations it
    started are an initial segment of the key's dependency set, some
    computation was started exactly when the key had dependents, and when the
    trap returns it has started every member of the set. *)
Theorem set_trap_guard n fuel o k v p s props s' :
  heap s !! o = Some (Plain props) →
  props !! "hasOwnProperty" = None →
  k ≠ "__proto__" →
  final (baseHandler_set (exec n) fuel o k v p s) = Some s' →
  (∀ old, props !! k = Some old → strict_neq old v = false →
     baseHandler_set (exec n) fuel o k v p s = Ret (VBool true) s' ∧
     s' = Reflect_set o k v s ∧
     heap s' !! o = Some (Plain (<[k := v]> props)) ∧
     new_runs s s' = []) ∧
  (props !! k = None ∨ (∃ old, props !! k = Some old ∧ strict_neq old v = true) →
     baseHandler_set (exec n) fuel o k v p s =
       (let* _ := trigger (exec n) fuel o "set" k in ret (VBool true))
         (Reflect_set o k v s) ∧
     heap (Reflect_set o k v s) !! o = Some (Plain (<[k := v]> props)) ∧
     own_runs s s' `prefix_of` deps_of s' o k ∧
     (own_runs s s' ≠ [] ↔ deps_of s o k ≠ []) ∧
     (∀ r, baseHandler_set (exec n) fuel o k v p s = Ret r s' →
           own_runs s s' = deps_of s' o k)).
Proof.
  intros Ho _ _ Hf.
  assert (Hlt : o < length (heap s)) by (by eapply lookup_lt_Some).
  assert (Hw : heap (Reflect_set o k v s) !! o = Some (Plain (<[k := v]> props))).
  { simpl. rewrite (props_of_plain _ _ _ Ho). by apply list_lookup_insert_eq. }
  assert (Hg : Reflect_get s o k = default VUndef (props !! k)).
  { unfold Reflect_get. by rewrite (props_of_plain _ _ _ Ho). }
  split.
  - intros old Hk Hn.
    assert (H1 : hasKey s o k = true).
    { rewrite (hasKey_plain _ _ _ _ Ho), Hk. apply bool_decide_eq_true_2. eauto. }
    assert (H2 : strict_neq (Reflect_get s o k) v = false) by (by rewrite Hg, Hk).
    rewrite (baseHandler_set_same _ _ _ _ _ _ _ H1 H2) in Hf |- *.
    simpl in Hf. simplify_eq. split_and!; [done|done|done|].
    unfold new_runs. simpl. apply drop_all.
  - intros Hc.
    assert (Hc' : hasKey s o k = false ∨ strict_neq (Reflect_get s o k) v = true).
    { destruct Hc as [Hk|(old & Hk & Hn)].
      - left. rewrite (hasKey_plain _ _ _ _ Ho), Hk.
        apply bool_decide_eq_false_2. by intros [? ?].
      - right. by rewrite Hg, Hk. }
    assert (Heq : baseHandler_set (exec n) fuel o k v p s =
              (let* _ := trigger (exec n) fuel o "set" k in ret (VBool true))
                (Reflect_set o k v s)).
    { rewrite baseHandler_set_unfold.
      replace (negb (hasKey s o k) || strict_neq (Reflect_get s o k) v)
        with true by (destruct Hc' as [-> | ->]; [done|by rewrite orb_true_r]).
      done. }
    destruct (baseHandler_set_extends _ (exec_extends n) _ _ _ _ _ _ _ Hf)
      as [He Hpre].
    split_and!; [done|done|done| |].
    + rewrite Heq in Hf.
      assert (final (trigger (exec n) fuel o "set" k (Reflect_set o k v s)) = Some s')
        as Ht.
      { unfold bind, ret in Hf.
        destruct (trigger _ _ _ _ _ _) as [[] ?|? ?| |]; simplify_eq/=; done. }
      destruct (trigger_extends _ (exec_extends n) _ _ _ _ _ _ _ eq_refl Ht) as (Het & _).
      rewrite (own_runs_after_write o k v s s' Het).
      by rewrite (trigger_own_runs _ _ _ _ _ _ _ (exec_extends n) Ht).
    + intros r Hr.
      by apply (baseHandler_set_replays _ (exec_extends n) _ _ _ _ _ _ _ _ Hc' Hr).
Qed.

(** The write of 2 over 1 with one computation reading the key. *)
Lemma set_trap_guard_witness :
  let s := store_reader in
  let s' := store_after (baseHandler_set (exec 9) 9 0 "a" (VNum 2) 1 s) in
  baseHandler_set (exec 9) 9 0 "a" (VNum 2) 1 s =
    (let* _ := trigger (exec 9) 9 0 "set" "a" in ret (VBool true))
      (Reflect_set 0 "a" (VNum 2) s) ∧
  heap (Reflect_set 0 "a" (VNum 2) s) !! 0 =
    Some (Plain (<["a" := VNum 2]> {["a" := VNum 1]})) ∧
  own_runs s s' `prefix_of` deps_of s' 0 "a" ∧
  (own_runs s s' ≠ [] ↔ deps_of s 0 "a" ≠ []) ∧
  (∀ r, baseHandler_set (exec 9) 9 0 "a" (VNum 2) 1 s = Ret r s' →
        own_runs s s' = deps_of s' 0 "a").
Proof.
  apply (set_trap_guard 9 9 0 "a" (VNum 2) 1 store_reader {["a" := VNum 1]}
           (store_after (baseHandler_set (exec 9) 9 0 "a" (VNum 2) 1 store_reader))).
  - vm_compute; reflexivity.
  - vm_compute; reflexivity.
  - discriminate.
  - vm_compute; reflexivity.
  - right. exists (VNum 1). split; vm_compute; reflexivity.
Defined.

(** The guard on the running example: the registration runs the computation
    once, the write of 2 over 1 runs it a second time, and the write of 2
    over 2 runs nothing. *)
Example write_guard_counts :
  runs store_reader = [(0, 1)] ∧
  runs (store_after (exec 9 (ESet (wrap 0) "a" (num 2)) store_reader))
    = [(0, 1); (0, 1)] ∧
  runs (store_after (exec 9 (ESeq (ESet (wrap 0) "a" (num 2))
                                  (ESet (wrap 0) "a" (num 2))) store_reader))
    = [(0, 1); (0, 1)].
Proof. split_and!; vm_compute; reflexivity. Qed.

(** The same count without the history: a computation that allocates an
    object on each run, so that the size of the heap counts its runs.
    Registration runs it once (and wraps [o]), the write of 2 over 1 once
    more, the write of 2 over 2 not at all. *)
Example write_guard_external_counter :
  let counting := EEffect (ESeq (ENew []) (EGet (wrap 0) "a")) in
  let write := ESet (wrap 0) "a" (num 2) in
  let s1 := store_after (exec 9 counting (init heap_a)) in
  let s2 := store_after (exec 9 write s1) in
  let s3 := store_after (exec 9 write s2) in
  length (heap (init heap_a)) = 1 ∧
  length (heap s1) = 3 ∧ length (heap s2) = 4 ∧ length (heap s3) = 4 ∧
  runs s1 = [(0, 1)] ∧ runs s2 = [(0, 1); (0, 1)] ∧ runs s3 = [(0, 1); (0, 1)].
Proof. split_and!; vm_compute; reflexivity. Qed.

(** The guard is [!==] on IEEE doubles, not identity of the stored value:
    writing [-0] over [+0] replaces the stored value and replays nothing,
    and writing [NaN] over [NaN] replays. *)
Example write_guard_on_zero_and_nan :
  let write x s := store_after (exec 9 (ESet (wrap 0) "a" (num x)) s) in
  let s1 := write (-0)%float (write 0%float store_reader) in
  let s2 := write nan (write nan store_reader) in
  runs (write 0%float store_reader) = [(0, 1); (0, 1)] ∧
  runs s1 = [(0, 1); (0, 1)] ∧
  Reflect_get s1 0 "a" = VNum (-0)%float ∧
  PrimFloat.classify (-0)%float ≠ PrimFloat.classify 0%float ∧
  runs (write nan store_reader) = [(0, 1); (0, 1)] ∧
  runs s2 = [(0, 1); (0, 1); (0, 1)].
Proof. split_and!; vm_compute; (reflexivity || discriminate). Qed.

(** ** Reads *)



Example idle_read_then_write :
  ∃ s', exec 9 (ESeq (EGet (wrap 0) "a") (ESet (wrap 0) "a" (num 2))) (init heap_a)
          = Ret (VNum 2) s' ∧
        runs s' = [] ∧ targetMap s' = ∅ ∧ Reflect_get s' 0 "a" = VNum 2.
Proof. eexists. split_and!; [vm_compute; reflexivity|reflexivity..]. Qed.

(** ** Deletion *)

Lemma exec_val n v s : valid_val s v = true → exec (S n) (EVal v) s = Ret v s.
Proof. simpl. by intros ->. Qed.

(** C9. Deleting a property through the wrapper performs the delete on the
    raw object and runs no computation, whatever the dependency set of the
    key holds: the trap returns [true], the raw object has lost the key, the
    console has one more line, and the history, the dependency graph and the
    stack are untouched. The trap is not even given the means to call user
    code. *)
Theorem delete_replays_nothing n s p o k props :
  heap s !! p = Some (Proxy o) →
  heap s !! o = Some (Plain props) →
  ∃ s',
    exec (S (S n)) (EDelete (EVal (VRef p)) k) s = Ret (VBool true) s' ∧
    deleteV (VRef p) k s = Ret (VBool true) s' ∧
    heap s' !! o = Some (Plain (delete k props)) ∧
    hasKey s' o k = false ∧
    runs s' = runs s ∧
    targetMap s' = targetMap s ∧
    activeEffectStack s' = activeEffectStack s ∧
    console s' = console s ++ ["delete"].
Proof.
  intros Hp Ho.
  assert (Hlt : o < length (heap s)) by (by eapply lookup_lt_Some).
  assert (Hv : valid_val s (VRef p) = true).
  { apply valid_val_ref. eauto. }
  eexists. split_and!.
  - change (exec (S (S n)) (EDelete (EVal (VRef p)) k) s)
      with (bind (exec (S n) (EVal (VRef p))) (λ o, deleteV o k) s).
    unfold bind. rewrite (exec_val _ _ _ Hv).
    unfold deleteV. rewrite Hp. unfold lift. simpl. reflexivity.
  - unfold deleteV. rewrite Hp. done.
  - simpl. rewrite (props_of_plain _ _ _ Ho). by apply list_lookup_insert_eq.
  - unfold hasKey, props_of. simpl. rewrite (props_of_plain _ _ _ Ho).
    rewrite list_lookup_insert_eq by done.
    rewrite lookup_delete_eq. apply bool_decide_eq_false_2. by intros [? ?].
  - done.
  - done.
  - done.
  - done.
Qed.

Lemma delete_replays_nothing_witness :
  ∃ s',
    exec 2 (EDelete (EVal (VRef 1)) "a") store_reader = Ret (VBool true) s' ∧
    deleteV (VRef 1) "a" store_reader = Ret (VBool true) s' ∧
    heap s' !! 0 = Some (Plain (delete "a" {["a" := VNum 1]})) ∧
    hasKey s' 0 "a" = false ∧
    runs s' = runs store_reader ∧
    targetMap s' = targetMap store_reader ∧
    activeEffectStack s' = activeEffectStack store_reader ∧
    console s' = console store_reader ++ ["delete"].
Proof.
  exact (delete_replays_nothing 0 store_reader 1 0 "a" {["a" := VNum 1]}
           ltac:(vm_compute; reflexivity) ltac:(vm_compute; reflexivity)).
Defined.

(** ** Nested objects *)

(** On a well-formed store, wrapping an ordinary object yields a proxy over
    that very object, at another address. *)
Lemma reactive_wraps s l props w s1 :
  wf s → heap s !! l = Some (Plain props) → reactive (VRef l) s = (w, s1) →
  ∃ q, w = VRef q ∧ q ≠ l ∧ heap s1 !! q = Some (Proxy l).
Proof.
  intros Hwf Hl. rewrite reactive_cases.
  destruct (toProxy s !! l) as [q|] eqn:Ep.
  - intros [= <- <-]. exists q.
    apply (wf_toProxy _ Hwf), (wf_toRaw _ Hwf) in Ep as (_ & Hq & _).
    split_and!; [done|congruence|done].
  - rewrite (wf_plain_not_wrapper _ _ _ Hwf Hl).
    rewrite bool_decide_eq_false_2 by (by intros [? ?]).
    intros [= <- <-]. exists (length (heap s)). simpl.
    split_and!; [done| |].
    + apply lookup_lt_Some in Hl. lia.
    + rewrite lookup_app_r by done. by rewrite Nat.sub_diag.
Qed.

(** C6. Nested lazy reactivity. Reading through the wrapper a property
    whose underlying value is an object returns [reactive(result)], computed
    after the read was tracked; for an ordinary object that is its wrapper, a
    proxy at another address than the raw value. And for
    [o = { nested: { x: 1 } }], the computation that reads
    [reactive(o).nested.x] is recorded as a dependent of the inner object's
    [x] and is re-run when [reactive(o).nested.x = 2] is written. *)
Theorem nested_read_returns_wrapper :
  (∀ s p o k,
     wf s → heap s !! p = Some (Proxy o) → isObject (Reflect_get s o k) = true →
     ∃ w s1,
       getV (VRef p) k s = Ret w s1 ∧
       reactive (Reflect_get s o k) (track o k s) = (w, s1) ∧
       ∀ l props, Reflect_get s o k = VRef l → heap s !! l = Some (Plain props) →
         ∃ q, w = VRef q ∧ q ≠ l ∧ heap s1 !! q = Some (Proxy l)) ∧
  (let s1 := store_reader_nested in
   runs s1 = [(0, 1)] ∧
   deps_of s1 0 "x" = [0] ∧
   ∃ s2, exec 9 write_nested s1 = Ret (VNum 2) s2 ∧
         own_runs s1 s2 = [0] ∧
         runs s2 = [(0, 1); (0, 1)] ∧
         Reflect_get s2 0 "x" = VNum 2).
Proof.
  split.
  - intros s p o k Hwf Hp Hobj. rewrite (getV_proxy _ _ _ _ Hp).
    unfold lift, baseHandler_get. rewrite Hobj.
    destruct (reactive _ _) as [w s1] eqn:Er. exists w, s1.
    split_and!; [done|done|].
    intros l props Hl Hpl. rewrite Hl in Er.
    eapply reactive_wraps; [by apply track_wf| |exact Er].
    by rewrite track_heap.
  - split_and!; [vm_compute; reflexivity..|].
    eexists. split_and!; [vm_compute; reflexivity|reflexivity..].
Qed.

Lemma wf_heap_nested : wf (init heap_nested).
Proof.
  apply wf_init. intros [|[|l]] c Hl; [| |done]; simplify_eq/=.
  - eexists. split; [done|].
    intros k v Hk. apply lookup_singleton_Some in Hk as [_ <-]. done.
  - eexists. split; [done|].
    intros k v Hk. apply lookup_singleton_Some in Hk as [_ <-]. done.
Qed.

Lemma exec_wf_final n e s s' : wf s → final (exec n e s) = Some s' → wf s'.
Proof.
  intros Hwf Hf. pose proof (exec_wf n e s Hwf) as H.
  destruct (exec n e s) as [a s1|v s1| |]; simplify_eq/=; [by destruct H|done].
Qed.

(** The read [reactive(o).nested] in the store where [o] has been wrapped. *)
Lemma nested_read_returns_wrapper_witness :
  let s := (reactive (VRef 1) (init heap_nested)).2 in
  ∃ w s1,
    getV (VRef 2) "nested" s = Ret w s1 ∧
    reactive (Reflect_get s 1 "nested") (track 1 "nested" s) = (w, s1) ∧
    ∀ l props, Reflect_get s 1 "nested" = VRef l → heap s !! l = Some (Plain props) →
      ∃ q, w = VRef q ∧ q ≠ l ∧ heap s1 !! q = Some (Proxy l).
Proof.
  apply (proj1 nested_read_returns_wrapper
           (reactive (VRef 1) (init heap_nested)).2 2 1 "nested").
  - apply (exec_wf_final 2 (wrap 1) (init heap_nested));
      [apply wf_heap_nested|vm_compute; reflexivity].
  - vm_compute; reflexivity.
  - vm_compute; reflexivity.
Defined.

(** ** Absent keys *)

Lemma hasKey_false s o k : hasKey s o k = false → props_of s o !! k = None.
Proof.
  unfold hasKey. intros H%bool_decide_eq_false. by apply eq_None_not_Some.
Qed.

(** C10, as stated, fails when another dependent throws: computation 1
    read the absent key ["b"] of [o = { a: 1 }] while active, and the read was
    tracked; the first write [reactive(o).b = 5] is an add and replays the
    set, but computation 0, first in the set, throws, and computation 1 is
    not re-run. *)
Lemma add_skips_dependents_after_a_throw :
  let s := store_thrower_reader_b in
  heap s !! 1 = Some (Proxy 0) ∧
  hasKey s 0 "b" = false ∧
  deps_of s 0 "b" = [0; 1] ∧
  ∃ s', putV (exec 9) 9 (VRef 1) "b" (VNum 5) s = Throw (VStr "boom") s' ∧
        hasKey s' 0 "b" = true ∧
        own_runs s s' = [0] ∧
        count_occ Nat.eq_dec (own_runs s s') 1 = 0.
Proof.
  split_and!; [vm_compute; reflexivity..|].
  eexists. split_and!; [vm_compute; reflexivity|reflexivity..].
Qed.

(** C10, amended. Reading a key that is absent from the raw object while a
    computation is active still records that computation as a dependent of
    [(object, key)]; the read returns [undefined] unless the key is one that
    [Object.prototype] supplies. A later first write of that key through the
    wrapper (any key but the accessor ["__proto__"]) is classified as an add:
    the trap performs the write and replays the dependency set, so that, when
    the write returns normally, the computation has been re-run by it. *)
Theorem absent_key_read_is_tracked n s p o k h :
  heap s !! p = Some (Proxy o) →
  props_of s o !! k = None →
  last (activeEffectStack s) = Some h →
  (∃ r s1,
     getV (VRef p) k s = Ret r s1 ∧
     (k ∉ Object_prototype_keys → r = VUndef) ∧
     h ∈ deps_of s1 o k) ∧
  ∀ s2 v r s3,
    h ∈ deps_of s2 o k →
    heap s2 !! p = Some (Proxy o) →
    props_of s2 o !! k = None →
    k ≠ "__proto__" →
    putV (exec n) n (VRef p) k v s2 = Ret r s3 →
    putV (exec n) n (VRef p) k v s2 =
      (let* _ := trigger (exec n) n o "add" k in ret v) (Reflect_set o k v s2) ∧
    h ∈ own_runs s2 s3.
Proof.
  intros Hp Hk Hl.
  assert (Habsent : ∀ s0, props_of s0 o !! k = None → hasKey s0 o k = false).
  { intros s0 E. unfold hasKey. rewrite E. apply bool_decide_eq_false_2.
    by intros [? ?]. }
  assert (Hu : Reflect_get s o k = VUndef).
  { unfold Reflect_get. by rewrite Hk. }
  split.
  - exists VUndef, (track o k s). split_and!; [|done|by apply track_records].
    rewrite (getV_proxy _ _ _ _ Hp). unfold lift, baseHandler_get. by rewrite Hu.
  - intros s2 v r s3 Hin Hp2 Hk2%Habsent _ Hr. split.
    + rewrite (putV_proxy _ _ _ _ _ _ _ Hp2). unfold bind, baseHandler_set.
      rewrite Hk2. simpl. unfold bind, ret.
      by destruct (trigger _ _ _ _ _ _).
    + rewrite (putV_proxy _ _ _ _ _ _ _ Hp2) in Hr. unfold bind, ret in Hr.
      destruct (baseHandler_set _ _ _ _ _ _ _) as [a s4|w s4| |] eqn:Es; simplify_eq.
      pose proof (baseHandler_set_replays _ (exec_extends n) _ _ _ _ _ _ _ _
                    (or_introl Hk2) Es) as Ho.
      pose proof (f_equal final Es) as Hf. simpl in Hf.
      apply (baseHandler_set_extends _ (exec_extends n)) in Hf as [He _].
      rewrite Ho. eapply elem_of_prefix; [exact Hin|apply (ext_deps _ _ He)].
Qed.

(** The two halves on [o = { a: 1 }] and [effect(() => reactive(o).b)]: the
    read of [.b] inside the first run, and, once the registration is over,
    the first write [reactive(o).b = 5]. *)
Lemma absent_key_read_is_tracked_witness :
  (∃ r s1,
     getV (VRef 1) "b" store_reading_b = Ret r s1 ∧
     ("b" ∉ Object_prototype_keys → r = VUndef) ∧
     0 ∈ deps_of s1 0 "b") ∧
  let s2 := store_after (exec 9 reader_b (init heap_a)) in
  let s3 := store_after (putV (exec 9) 9 (VRef 1) "b" (VNum 5) s2) in
  putV (exec 9) 9 (VRef 1) "b" (VNum 5) s2 =
    (let* _ := trigger (exec 9) 9 0 "add" "b" in ret (VNum 5))
      (Reflect_set 0 "b" (VNum 5) s2) ∧
  0 ∈ own_runs s2 s3.
Proof.
  destruct (absent_key_read_is_tracked 9 store_reading_b 1 0 "b" 0
              eq_refl eq_refl eq_refl) as [Hread Hwrite].
  split; [exact Hread|].
  apply (Hwrite (store_after (exec 9 reader_b (init heap_a))) (VNum 5) (VNum 5)).
  - replace (deps_of (store_after (exec 9 reader_b (init heap_a))) 0 "b")
      with [0] by (vm_compute; reflexivity).
    apply list_elem_of_here.
  - vm_compute; reflexivity.
  - vm_compute; reflexivity.
  - discriminate.
  - vm_compute; reflexivity.
Defined.

(** The store of that read is the one the registration passes through: from
    it, the read and the pop of [run] give the store after the registration. *)
Example store_reading_b_is_reached :
  activeEffectStack store_reading_b = [0] ∧
  effects store_reading_b !! 0 = Some (EGet (wrap 0) "b") ∧
  pop (store_after (getV (VRef 1) "b" store_reading_b)) =
  store_after (exec 9 reader_b (init heap_a)).
Proof. split_and!; vm_compute; reflexivity. Qed.

(** The whole story on [o = { a: 1 }]: the computation reads the absent
    [b], and the first write of [b] runs it again. *)
Example absent_key_then_add :
  let s := store_after (exec 9 reader_b (init heap_a)) in
  runs s = [(0, 1)] ∧ deps_of s 0 "b" = [0] ∧ hasKey s 0 "b" = false ∧
  ∃ s', exec 9 (ESet (wrap 0) "b" (num 5)) s = Ret (VNum 5) s' ∧
        runs s' = [(0, 1); (0, 1)] ∧ hasKey s' 0 "b" = true.
Proof.
  split_and!; [vm_compute; reflexivity..|].
  eexists. split_and!; [vm_compute; reflexivity|reflexivity..].
Qed.

(** * Further properties of the engine *)

(** ** What no execution does to the globals *)

(** X1. Whatever host code does (registering effects, writing through
    wrappers, with replays nested to any depth), and whether it returns or
    throws, it leaves [activeEffectStack] as it found it: every push of [run]
    has been undone by the matching pop. *)
Theorem exec_restores_stack n e s s' :
  final (exec n e s) = Some s' →
  activeEffectStack s' = activeEffectStack s.
Proof. intros Hf. apply (ext_stack _ _ (exec_extends n e s s' Hf)). Qed.

(** Inside a running computation, a write whose replay throws. *)
Lemma exec_restores_stack_witness :
  let s := entered 0 store_thrower_reader in
  activeEffectStack (store_after (exec 9 (ESet (wrap 0) "a" (num 2)) s)) =
  activeEffectStack s.
Proof.
  exact (exec_restores_stack 9 (ESet (wrap 0) "a" (num 2))
           (entered 0 store_thrower_reader)
           (store_after (exec 9 (ESet (wrap 0) "a" (num 2))
                           (entered 0 store_thrower_reader)))
           ltac:(vm_compute; reflexivity)).
Defined.

(** X2. Dependency sets never shrink and are never reordered: after any
    execution, the set of every [(target, key)] starts with what it was.
    [track] only appends, and nothing removes. *)
Theorem deps_only_grow n e s s' o k :
  final (exec n e s) = Some s' →
  deps_of s o k `prefix_of` deps_of s' o k.
Proof. intros Hf. apply (ext_deps _ _ (exec_extends n e s s' Hf)). Qed.

Lemma deps_only_grow_witness :
  deps_of store_reader 0 "a" `prefix_of`
  deps_of (store_after (exec 9 reader_a store_reader)) 0 "a".
Proof.
  exact (deps_only_grow 9 reader_a store_reader
           (store_after (exec 9 reader_a store_reader)) 0 "a"
           ltac:(vm_compute; reflexivity)).
Defined.

(** X3. Dependency sets stay sets: when no set holds an effect twice, no
    execution makes one that does, however often the effects re-read their
    keys. *)
Theorem deps_stay_sets n e s s' :
  deps_nodup s →
  final (exec n e s) = Some s' →
  deps_nodup s'.
Proof. intros Hnd Hf. apply (ext_nodup _ _ (exec_extends n e s s' Hf) Hnd). Qed.

Lemma deps_stay_sets_witness :
  deps_nodup (store_after (exec 9 (ESeq reader_a (ESet (wrap 0) "a" (num 2)))
                             (init heap_a))).
Proof.
  exact (deps_stay_sets 9 (ESeq reader_a (ESet (wrap 0) "a" (num 2))) (init heap_a)
           (store_after (exec 9 (ESeq reader_a (ESet (wrap 0) "a" (num 2)))
                           (init heap_a)))
           (deps_nodup_init heap_a) ltac:(vm_compute; reflexivity)).
Defined.

(** X4. The function objects made by [createReactiveEffect] are never
    replaced: after any execution, a handle still closes over the callback it
    was created with, so a replay always calls the registered callback. *)
Theorem effects_are_kept n e s s' h fn :
  final (exec n e s) = Some s' →
  effects s !! h = Some fn →
  effects s' !! h = Some fn.
Proof.
  intros Hf Hh. eapply prefix_lookup_Some; [exact Hh|].
  apply (ext_effects _ _ (exec_extends n e s s' Hf)).
Qed.

Lemma effects_are_kept_witness :
  effects (store_after (exec 9 reader_b store_reader)) !! 0 =
  Some (EGet (wrap 0) "a").
Proof.
  exact (effects_are_kept 9 reader_b store_reader
           (store_after (exec 9 reader_b store_reader)) 0 (EGet (wrap 0) "a")
           ltac:(vm_compute; reflexivity) ltac:(vm_compute; reflexivity)).
Defined.

(** ** [track] *)

(** X5. Tracking the same read twice is tracking it once: the second
    [track(target, key)] of the same computation changes nothing at all. *)
Theorem track_idempotent o k s : track o k (track o k s) = track o k s.
Proof.
  unfold track at 1. rewrite track_stack.
  destruct (last (activeEffectStack s)) as [h|] eqn:El; [|done].
  pose proof (track_records o k s h El) as Hin.
  unfold deps_of in Hin. unfold track in *. rewrite El in *. simpl in *.
  rewrite lookup_insert_eq in Hin |- *. simpl in *.
  rewrite lookup_insert_eq in Hin |- *. simpl in *.
  rewrite bool_decide_eq_true_2 by done.
  unfold with_targetMap. simpl. f_equal.
  by rewrite !insert_insert_eq.
Qed.

(** X6. [track(target, key)] adds at most one edge, from [(target, key)]
    to the computation on top of the stack: an effect is in a dependency set
    afterwards exactly when it was there before, or it is the running effect
    and the set is the one of the key that was read. Effects lower in the
    stack and other keys gain nothing. *)
Theorem track_adds_only_current o k s o' k' h :
  h ∈ deps_of (track o k s) o' k' ↔
  h ∈ deps_of s o' k' ∨
  (o' = o ∧ k' = k ∧ last (activeEffectStack s) = Some h).
Proof.
  rewrite deps_of_track. case_decide as Hok.
  - destruct Hok as [Ho Hk]. subst o' k'.
    destruct (last (activeEffectStack s)) as [top|] eqn:El.
    + case_bool_decide as Hin.
      * split; [by left|]. intros [?|(_ & _ & E)]; [done|by simplify_eq].
      * rewrite elem_of_app, list_elem_of_singleton.
        split; [intros [? | ->]; [by left|by right]|].
        intros [?|(_ & _ & E)]; [by left|right; by simplify_eq].
    + split; [by left|]. by intros [?|(_ & _ & ?)].
  - split; [by left|]. intros [?|(-> & -> & _)]; [done|]. by destruct Hok.
Qed.

(** ** [reactive] *)

(** X7. [reactive] is the identity on everything that is not an object:
    [undefined], [null] (whose [typeof] is ["object"]), booleans, numbers,
    strings and functions come back unchanged, and the store is not touched:
    no proxy is made and nothing is registered. *)
Theorem reactive_leaves_non_objects v s :
  (∀ l, v ≠ VRef l) →
  isObject v = false ∧ reactive v s = (v, s).
Proof.
  intros Hv. assert (isObject v = false) as Hobj.
  { destruct v; try done. by destruct (Hv l). }
  split; [done|]. by apply reactive_scalar.
Qed.

Lemma reactive_leaves_non_objects_witness :
  isObject VNull = false ∧ reactive VNull store_reader = (VNull, store_reader).
Proof.
  exact (reactive_leaves_non_objects VNull store_reader ltac:(discriminate)).
Defined.

(** X8. Wrapping an ordinary object registers the pair in both
    directions and does not touch the object: afterwards [toProxy] maps the
    raw object to the wrapper, [toRaw] maps the wrapper back to the raw
    object, the wrapper is a proxy over it, and the raw object has the
    properties it had. *)
Theorem reactive_registers_both_ways s l props :
  wf s →
  heap s !! l = Some (Plain props) →
  ∃ p s1,
    reactive (VRef l) s = (VRef p, s1) ∧
    toProxy s1 !! l = Some p ∧
    toRaw s1 !! p = Some l ∧
    heap s1 !! p = Some (Proxy l) ∧
    heap s1 !! l = Some (Plain props).
Proof.
  intros Hwf Hl. destruct (reactive (VRef l) s) as [w s1] eqn:Er.
  assert (Hv : valid_val s (VRef l) = true) by (apply valid_val_ref; eauto).
  destruct (reactive_wf _ _ _ _ Hwf Hv Er) as [Hwf1 _].
  destruct (reactive_wraps _ _ _ _ _ Hwf Hl Er) as (p & -> & _ & Hp).
  exists p, s1. pose proof (wf_proxy _ Hwf1 _ _ Hp) as Hr.
  destruct (wf_toRaw _ Hwf1 _ _ Hr) as (Ht & _ & _).
  split_and!; try done.
  rewrite reactive_cases in Er. destruct (toProxy s !! l); [by simplify_eq|].
  case_bool_decide; simplify_eq; try done. simpl. by apply lookup_app_l_Some.
Qed.

Lemma reactive_registers_both_ways_witness :
  ∃ p s1,
    reactive (VRef 0) (init heap_a) = (VRef p, s1) ∧
    toProxy s1 !! 0 = Some p ∧
    toRaw s1 !! p = Some 0 ∧
    heap s1 !! p = Some (Proxy 0) ∧
    heap s1 !! 0 = Some (Plain {["a" := VNum 1]}).
Proof.
  exact (reactive_registers_both_ways (init heap_a) 0 {["a" := VNum 1]}
           wf_heap_a eq_refl).
Defined.

(** ** The identity registries over time *)

(** Both registries only gain entries. *)
Local Abbreviation registry_kept s s' :=
  (toProxy s ⊆ toProxy s' ∧ toRaw s ⊆ toRaw s').

Lemma registry_kept_refl s : registry_kept s s.
Proof. done. Qed.

Lemma registry_kept_trans s1 s2 s3 :
  registry_kept s1 s2 → registry_kept s2 s3 → registry_kept s1 s3.
Proof. intros [? ?] [? ?]. split; by etrans. Qed.

Lemma registry_kept_quiet s s' :
  toProxy s' = toProxy s → toRaw s' = toRaw s → registry_kept s s'.
Proof. by intros -> ->. Qed.

Lemma reactive_registry_kept v s w s' :
  wf s → reactive v s = (w, s') → registry_kept s s'.
Proof.
  intros Hwf. destruct (isObject v) eqn:Hobj;
    [|rewrite reactive_scalar by done; by intros [= _ <-]].
  apply isObject_ref in Hobj as [t ->]. rewrite reactive_cases.
  destruct (toProxy s !! t) as [p|] eqn:Ep; [by intros [= _ <-]|].
  case_bool_decide as Er; [by intros [= _ <-]|].
  intros [= _ <-]. simpl. split; apply insert_subseteq; [done|].
  destruct (toRaw s !! length (heap s)) as [t'|] eqn:E; [|done].
  apply (wf_toRaw _ Hwf) in E as (_ & E & _).
  apply lookup_lt_Some in E. lia.
Qed.

Lemma baseHandler_get_registry_kept target key receiver s v s' :
  wf s → baseHandler_get target key receiver s = (v, s') → registry_kept s s'.
Proof.
  intros Hwf. unfold baseHandler_get. intros E.
  apply (registry_kept_trans _ (track target key s)).
  - apply registry_kept_quiet; [apply track_toProxy|apply track_toRaw].
  - destruct (isObject _).
    + eapply reactive_registry_kept; [by apply track_wf|done].
    + by simplify_eq.
Qed.

Section RegistryFacts.

Variable call : expr → M value.
Hypothesis call_wf : ∀ fn s, wf s → wf_val (call fn s).
Hypothesis call_kept :
  ∀ fn s s', wf s → final (call fn s) = Some s' → registry_kept s s'.

Lemma final_wf {A} ok (r : outcome A) s' : wf_out ok r → final r = Some s' → wf s'.
Proof. destruct r; simpl; intros H ?; simplify_eq; [by destruct H|done]. Qed.

Lemma run_registry_kept effect fn s s' :
  wf s → final (run call effect fn s) = Some s' → registry_kept s s'.
Proof.
  intros Hwf. rewrite run_unfold. intros Hf.
  assert (Hwf1 : wf (entered effect s)) by (revert Hwf; by apply wf_frame).
  assert (∃ s2, final (call fn (entered effect s)) = Some s2 ∧ s' = pop s2)
    as (s2 & Hc & ->).
  { destruct (call fn _); simplify_eq/=; eauto. }
  apply (call_kept _ _ _ Hwf1) in Hc. exact Hc.
Qed.

Lemma invoke_registry_kept effect s s' :
  wf s → final (invoke call effect s) = Some s' → registry_kept s s'.
Proof.
  intros Hwf. unfold invoke. destruct (effects s !! effect); [|done].
  by apply run_registry_kept.
Qed.

Lemma effect_registry_kept fn s s' :
  wf s → final (effect call fn s) = Some s' → registry_kept s s'.
Proof.
  intros Hwf. unfold effect, bind, lift, ret. simpl. intros Hf.
  set (s1 := with_effects (effects s ++ [fn]) s) in *.
  assert (Hwf1 : wf s1).
  { revert Hwf. apply wf_frame; try done. simpl. rewrite length_app. lia. }
  assert (final (invoke call (length (effects s)) s1) = Some s') as Hi.
  { destruct (invoke call _ s1); simplify_eq/=; done. }
  by apply (invoke_registry_kept _ _ _ Hwf1) in Hi.
Qed.

Lemma forEach_registry_kept fuel target key : ∀ i s s',
  wf s → final (forEach call fuel target key i s) = Some s' → registry_kept s s'.
Proof.
  induction fuel as [|fuel IH]; intros i s s' Hwf; simpl.
  - destruct (_ !! _); [done|]. by intros [= <-].
  - destruct (_ !! _) as [h|]; [|by intros [= <-]].
    intros [[v Hf]|(a & s1 & He & Hf)]%bind_final.
    + apply (invoke_registry_kept h); [done|by rewrite Hf].
    + assert (final (invoke call h s) = Some s1) as Hi by (by rewrite He).
      pose proof (invoke_wf _ call_wf h s Hwf) as Hw. rewrite He in Hw.
      destruct Hw as [Hwf1 _].
      eapply registry_kept_trans; [by eapply invoke_registry_kept|by eapply IH].
Qed.

Lemma trigger_registry_kept fuel target type key s s' :
  wf s → final (trigger call fuel target type key s) = Some s' → registry_kept s s'.
Proof.
  intros Hwf. unfold trigger.
  destruct (_ !! _) as [depsMap|]; [|by intros [= <-]].
  destruct (_ !! _); [|by intros [= <-]]. by apply forEach_registry_kept.
Qed.

Lemma baseHandler_set_registry_kept fuel target key v receiver s props s' :
  wf s → heap s !! target = Some (Plain props) → valid_val s v = true →
  final (baseHandler_set call fuel target key v receiver s) = Some s' →
  registry_kept s s'.
Proof.
  intros Hwf Ht Hv. rewrite baseHandler_set_unfold.
  pose proof (Reflect_set_wf _ key _ _ _ Hwf Ht Hv) as Hwf1.
  destruct (_ || _); [|by intros [= <-]].
  intros [[w Hf]|([] & s1 & He & Hf)]%bind_final.
  - apply (trigger_registry_kept fuel target "set" key _ _ Hwf1). by rewrite Hf.
  - unfold ret in Hf. simpl in Hf. simplify_eq.
    apply (trigger_registry_kept fuel target "set" key _ _ Hwf1). by rewrite He.
Qed.

Lemma getV_registry_kept o key s s' :
  wf s → final (getV o key s) = Some s' → registry_kept s s'.
Proof.
  intros Hwf. unfold getV. destruct o; try done; try by intros [= <-].
  destruct (heap s !! l) as [[props|target]|]; [by intros [= <-]| |done].
  unfold lift. destruct (baseHandler_get _ _ _ _) as [w s1] eqn:E.
  intros [= <-]. by eapply baseHandler_get_registry_kept.
Qed.

Lemma putV_registry_kept fuel o key v s s' :
  wf s → valid_val s v = true →
  final (putV call fuel o key v s) = Some s' → registry_kept s s'.
Proof.
  intros Hwf Hv. unfold putV. destruct o; try done; try by intros [= <-].
  destruct (heap s !! l) as [[props|target]|] eqn:El; [by intros [= <-]| |done].
  destruct (wf_target _ _ _ Hwf El) as [props Ht].
  intros Hf. apply (baseHandler_set_registry_kept fuel target key v l s props);
    [done..|].
  unfold bind, ret in Hf.
  destruct (baseHandler_set _ _ _ _ _ _ _); simplify_eq/=; done.
Qed.

Lemma deleteV_registry_kept o key s s' :
  final (deleteV o key s) = Some s' → registry_kept s s'.
Proof.
  unfold deleteV. destruct o; try done; try by intros [= <-].
  destruct (heap s !! l) as [[props|target]|]; [by intros [= <-]| |done].
  unfold lift. simpl. by intros [= <-].
Qed.

End RegistryFacts.

Lemma exec_registry_kept n : ∀ e s s',
  wf s → final (exec n e s) = Some s' → registry_kept s s'.
Proof.
  induction n as [|n IH]; [done|].
  assert (Hstep : ∀ e s a s1, wf s → exec n e s = Ret a s1 →
            wf s1 ∧ valid_val s1 a = true ∧ registry_kept s s1).
  { intros e s a s1 Hwf He. pose proof (exec_wf n e s Hwf) as Hw.
    rewrite He in Hw. destruct Hw as [? ?]. split; [done|]. split; [done|].
    apply (IH e); [done|by rewrite He]. }
  assert (Hthrow : ∀ e s v s1, wf s → exec n e s = Throw v s1 →
            wf s1 ∧ registry_kept s s1).
  { intros e s v s1 Hwf He. pose proof (exec_wf n e s Hwf) as Hw.
    rewrite He in Hw. split; [done|]. apply (IH e); [done|by rewrite He]. }
  intros e s s' Hwf Hf. destruct e; simpl in Hf.
  - destruct (valid_val s v); by simplify_eq/=.
  - destruct (forallb _ _); by simplify_eq/=.
  - apply bind_final in Hf as [[v Hf]|(o & s1 & He & Hf)].
    + by apply (Hthrow _ _ _ _ Hwf Hf).
    + destruct (Hstep _ _ _ _ Hwf He) as (Hwf1 & _ & Hk).
      eapply registry_kept_trans; [exact Hk|by eapply getV_registry_kept].
  - apply bind_final in Hf as [[v Hf]|(o & s1 & He & Hf)];
      [by apply (Hthrow _ _ _ _ Hwf Hf)|].
    destruct (Hstep _ _ _ _ Hwf He) as (Hwf1 & _ & Hk).
    apply bind_final in Hf as [[v Hf]|(w & s2 & He' & Hf)].
    + eapply registry_kept_trans; [exact Hk|by apply (Hthrow _ _ _ _ Hwf1 Hf)].
    + destruct (Hstep _ _ _ _ Hwf1 He') as (Hwf2 & Hv & Hk').
      eapply registry_kept_trans; [exact Hk|].
      eapply registry_kept_trans; [exact Hk'|].
      by eapply (putV_registry_kept _ (exec_wf n) IH).
  - apply bind_final in Hf as [[v Hf]|(o & s1 & He & Hf)].
    + by apply (Hthrow _ _ _ _ Hwf Hf).
    + destruct (Hstep _ _ _ _ Hwf He) as (Hwf1 & _ & Hk).
      eapply registry_kept_trans; [exact Hk|by eapply deleteV_registry_kept].
  - apply bind_final in Hf as [[v Hf]|(o & s1 & He & Hf)].
    + by apply (Hthrow _ _ _ _ Hwf Hf).
    + destruct (Hstep _ _ _ _ Hwf He) as (Hwf1 & _ & Hk).
      eapply registry_kept_trans; [exact Hk|].
      unfold lift in Hf. destruct (reactive o s1) as [w s2] eqn:Er.
      simplify_eq/=. by eapply reactive_registry_kept.
  - by apply (effect_registry_kept _ IH) in Hf.
  - apply bind_final in Hf as [[v Hf]|(o & s1 & He & Hf)].
    + by apply (Hthrow _ _ _ _ Hwf Hf).
    + destruct (Hstep _ _ _ _ Hwf He) as (Hwf1 & _ & Hk).
      eapply registry_kept_trans; [exact Hk|by eapply IH].
  - apply bind_final in Hf as [[v Hf]|(o & s1 & He & Hf)].
    + by apply (Hthrow _ _ _ _ Hwf Hf).
    + destruct (Hstep _ _ _ _ Hwf He) as (Hwf1 & _ & Hk).
      eapply registry_kept_trans; [exact Hk|]. destruct (truthy o); by eapply IH.
  - apply bind_final in Hf as [[v Hf]|(o & s1 & He & Hf)].
    + by apply (Hthrow _ _ _ _ Hwf Hf).
    + unfold throw in Hf. simplify_eq/=. by apply (Hstep _ _ _ _ Hwf He).
  - unfold try_catch in Hf. destruct (exec n e1 s) as [a s1|v s1| |] eqn:E1;
      simplify_eq/=.
    + by apply (Hstep _ _ _ _ Hwf E1).
    + destruct (Hthrow _ _ _ _ Hwf E1) as [Hwf1 Hk].
      eapply registry_kept_trans; [exact Hk|by eapply IH].
Qed.

(** X9. The wrapper of a raw object is the same for the lifetime of the
    program: once [toProxy] maps a raw object to a wrapper, then after any
    execution [reactive] of the raw object still returns that wrapper, and
    [reactive] of the wrapper returns the wrapper, both without touching the
    store. *)
Theorem wrapper_identity_is_stable n e s s' l p :
  wf s →
  toProxy s !! l = Some p →
  final (exec n e s) = Some s' →
  reactive (VRef l) s' = (VRef p, s') ∧ reactive (VRef p) s' = (VRef p, s').
Proof.
  intros Hwf Hl Hf.
  destruct (exec_registry_kept n e s s' Hwf Hf) as [Hp _].
  pose proof (exec_wf_final n e s s' Hwf Hf) as Hwf'.
  pose proof (lookup_weaken _ _ _ _ Hl Hp) as Hl'.
  pose proof (wf_toProxy _ Hwf' _ _ Hl') as Hr.
  destruct (wf_toRaw _ Hwf' _ _ Hr) as (_ & Hc & _).
  rewrite !reactive_cases, Hl', (wf_proxy_unwrapped _ _ _ Hwf' Hc), Hr.
  by rewrite bool_decide_eq_true_2 by eauto.
Qed.

Lemma wrapper_identity_is_stable_witness :
  let s := (reactive (VRef 0) (init heap_a)).2 in
  let s' := store_after (exec 9 (ESeq reader_a (ESet (wrap 0) "a" (num 2))) s) in
  reactive (VRef 0) s' = (VRef 1, s') ∧ reactive (VRef 1) s' = (VRef 1, s').
Proof.
  apply (wrapper_identity_is_stable 9 (ESeq reader_a (ESet (wrap 0) "a" (num 2)))
           (reactive (VRef 0) (init heap_a)).2 _ 0 1).
  - apply (exec_wf_final 2 (wrap 0) (init heap_a));
      [apply wf_heap_a|vm_compute; reflexivity].
  - vm_compute; reflexivity.
  - vm_compute; reflexivity.
Defined.

(** X10. No execution ever makes a second wrapper for an object, or a
    wrapper of a wrapper: in every store reached from a well-formed one, two
    proxies over the same target are the same proxy, and the target of a
    proxy is an ordinary object. *)
Theorem wrappers_stay_unique n e s s' p p' t :
  wf s →
  final (exec n e s) = Some s' →
  heap s' !! p = Some (Proxy t) →
  heap s' !! p' = Some (Proxy t) →
  p = p' ∧ ∃ props, heap s' !! t = Some (Plain props).
Proof.
  intros Hwf Hf Hp Hp'. pose proof (exec_wf_final n e s s' Hwf Hf) as Hwf'.
  split; [by eapply wf_wrapper_unique|by eapply wf_target].
Qed.

Lemma wrappers_stay_unique_witness :
  let s' := store_after (exec 9 (ESeq reader_nested write_nested) (init heap_nested)) in
  2 = 2 ∧ ∃ props, heap s' !! 1 = Some (Plain props).
Proof.
  apply (wrappers_stay_unique 9 (ESeq reader_nested write_nested) (init heap_nested)
           _ 2 2 1).
  - apply wf_heap_nested.
  - vm_compute; reflexivity.
  - vm_compute; reflexivity.
  - vm_compute; reflexivity.
Defined.

(** ** Writes *)

(** X11. On a record that does not own a key ["hasOwnProperty"], a write
    through the wrapper of a key other than ["__proto__"] that no computation
    has read is exactly the write on the raw object: it returns the written
    value whatever the fuel, the raw object holds the value under the key
    (and owns the key), no computation has run, the dependency graph is as it
    was, and a scalar written this way is read back through the wrapper. *)
Theorem write_without_dependents call fuel s p o k v props :
  heap s !! p = Some (Proxy o) →
  heap s !! o = Some (Plain props) →
  props !! "hasOwnProperty" = None →
  k ≠ "__proto__" →
  deps_of s o k = [] →
  ∃ s1,
    putV call fuel (VRef p) k v s = Ret v s1 ∧
    heap s1 !! o = Some (Plain (<[k := v]> props)) ∧
    Reflect_get s1 o k = v ∧
    hasKey s1 o k = true ∧
    runs s1 = runs s ∧
    targetMap s1 = targetMap s ∧
    (isObject v = false → ∃ s2, getV (VRef p) k s1 = Ret v s2).
Proof.
  intros Hp Ho _ _ Hd. exists (Reflect_set o k v s).
  assert (Hlt : o < length (heap s)) by (by eapply lookup_lt_Some).
  assert (Ho1 : heap (Reflect_set o k v s) !! o = Some (Plain (<[k := v]> props))).
  { simpl. rewrite (props_of_plain _ _ _ Ho). by apply list_lookup_insert_eq. }
  assert (Hg : Reflect_get (Reflect_set o k v s) o k = v).
  { unfold Reflect_get. rewrite (props_of_plain _ _ _ Ho1).
    by rewrite lookup_insert_eq. }
  split_and!; try done.
  - rewrite (putV_proxy _ _ _ _ _ _ _ Hp). unfold bind, ret.
    rewrite baseHandler_set_unfold.
    destruct (_ || _); [|done].
    unfold bind, ret. by rewrite trigger_no_deps.
  - unfold hasKey. rewrite (props_of_plain _ _ _ Ho1), lookup_insert_eq.
    apply bool_decide_eq_true_2. eauto.
  - intros Hobj.
    assert (Hp1 : heap (Reflect_set o k v s) !! p = Some (Proxy o)).
    { simpl. rewrite list_lookup_insert_ne; [done|]. intros ->. congruence. }
    rewrite (getV_proxy _ _ _ _ Hp1). unfold lift, baseHandler_get.
    rewrite Hg, Hobj. eauto.
Qed.

Lemma write_without_dependents_witness :
  ∃ s1,
    putV (exec 0) 0 (VRef 1) "b" (VNum 5) store_reader = Ret (VNum 5) s1 ∧
    heap s1 !! 0 = Some (Plain (<["b" := VNum 5]> {["a" := VNum 1]})) ∧
    Reflect_get s1 0 "b" = VNum 5 ∧
    hasKey s1 0 "b" = true ∧
    runs s1 = runs store_reader ∧
    targetMap s1 = targetMap store_reader ∧
    (isObject (VNum 5) = false → ∃ s2, getV (VRef 1) "b" s1 = Ret (VNum 5) s2).
Proof.
  exact (write_without_dependents (exec 0) 0 store_reader 1 0 "b" (VNum 5)
           {["a" := VNum 1]}
           ltac:(vm_compute; reflexivity) ltac:(vm_compute; reflexivity)
           ltac:(vm_compute; reflexivity) ltac:(discriminate)
           ltac:(vm_compute; reflexivity)).
Defined.

(** A write whose first dependent throws: only that one was started. *)
Lemma write_replay_in_order_witness :
  let s := store_thrower_reader in
  let s' := store_after (putV (exec 9) 9 (VRef 1) "a" (VNum 2) s) in
  own_runs s s' `prefix_of` deps_of s' 0 "a" ∧ NoDup (own_runs s s').
Proof.
  apply (write_replay_in_order 9 store_thrower_reader 1 0 "a" (VNum 2)).
  - vm_compute; reflexivity.
  - apply (exec_nodup 9 (ESeq thrower_a reader_a) (init heap_a));
      [apply deps_nodup_init|vm_compute; reflexivity].
  - vm_compute; reflexivity.
Defined.

(** X13. Deleting a key through the wrapper and writing it again replays
    the dependents even when the value written is the one that was deleted:
    after the delete the key is not an own key, so the write is an add. When
    that write returns, it has started every member of the key's dependency
    set, which still holds every effect recorded before the delete. *)
Theorem delete_then_write_replays n s p o k v props b s1 r s2 :
  heap s !! p = Some (Proxy o) →
  heap s !! o = Some (Plain props) →
  deleteV (VRef p) k s = Ret b s1 →
  putV (exec n) n (VRef p) k v s1 = Ret r s2 →
  own_runs s1 s2 = deps_of s2 o k ∧
  deps_of s o k `prefix_of` deps_of s2 o k.
Proof.
  intros Hp Ho Hdel Hput.
  assert (Hlt : o < length (heap s)) by (by eapply lookup_lt_Some).
  unfold deleteV in Hdel. rewrite Hp in Hdel. unfold lift in Hdel. simpl in Hdel.
  simplify_eq.
  set (s1 := with_console _ _) in *.
  assert (Hp1 : heap s1 !! p = Some (Proxy o)).
  { simpl. rewrite list_lookup_insert_ne; [done|]. intros ->. congruence. }
  assert (Hk : hasKey s1 o k = false).
  { unfold hasKey, props_of. simpl. rewrite (props_of_plain _ _ _ Ho).
    rewrite list_lookup_insert_eq by done.
    rewrite lookup_delete_eq. apply bool_decide_eq_false_2. by intros [? ?]. }
  rewrite (putV_proxy _ _ _ _ _ _ _ Hp1) in Hput. unfold bind, ret in Hput.
  destruct (baseHandler_set _ _ _ _ _ _ _) as [a s3|w s3| |] eqn:Es; simplify_eq.
  pose proof (baseHandler_set_replays _ (exec_extends n) _ _ _ _ _ _ _ _
                (or_introl Hk) Es) as Hown.
  pose proof (f_equal final Es) as Hf. simpl in Hf.
  apply (baseHandler_set_extends _ (exec_extends n)) in Hf as [He _].
  split; [done|]. apply (ext_deps _ _ He o k).
Qed.

Lemma delete_then_write_replays_witness :
  let s1 := store_after (deleteV (VRef 1) "a" store_two_readers) in
  let s2 := store_after (putV (exec 9) 9 (VRef 1) "a" (VNum 1) s1) in
  own_runs s1 s2 = deps_of s2 0 "a" ∧
  deps_of store_two_readers 0 "a" `prefix_of` deps_of s2 0 "a".
Proof.
  apply (delete_then_write_replays 9 store_two_readers 1 0 "a" (VNum 1)
           {["a" := VNum 1]} (VBool true) _ (VNum 1)).
  - vm_compute; reflexivity.
  - vm_compute; reflexivity.
  - vm_compute; reflexivity.
  - vm_compute; reflexivity.
Defined.

(** ** Failed runs *)

Lemma baseHandler_get_keeps_edge target key receiver s v s' h :
  last (activeEffectStack s) = Some h →
  baseHandler_get target key receiver s = (v, s') →
  h ∈ deps_of s' target key.
Proof.
  intros Hl. unfold baseHandler_get. intros E.
  pose proof (track_records target key s h Hl) as Hin.
  destruct (isObject _); [|by simplify_eq].
  eapply elem_of_prefix; [exact Hin|].
  apply (ext_deps _ _ (reactive_extends _ _ _ _ E)).
Qed.

(** X14. A computation that reads a key through a wrapper and then fails
    is subscribed all the same: whenever [effect(() => { w.k; rest })] ends,
    by return or by an exception of [rest], the new effect is in the
    dependency set of the key it read. The [finally] of [run] pops the stack
    and nothing undoes what [track] recorded. *)
Theorem failed_run_stays_subscribed n s p o k rest s' :
  heap s !! p = Some (Proxy o) →
  final (exec n (EEffect (ESeq (EGet (EVal (VRef p)) k) rest)) s) = Some s' →
  length (effects s) ∈ deps_of s' o k.
Proof.
  intros Hp Hf. destruct n as [|n]; [done|]. simpl in Hf.
  rewrite effect_unfold in Hf.
  set (h := length (effects s)) in *.
  set (s0 := entered h _) in *.
  assert (∃ s2, final (exec n (ESeq (EGet (EVal (VRef p)) k) rest) s0) = Some s2 ∧
                s' = pop s2) as (s2 & Hc & ->).
  { destruct (exec n _ s0); simplify_eq/=; eauto. }
  change (deps_of (pop s2) o k) with (deps_of s2 o k).
  destruct n as [|n]; [done|]. simpl in Hc.
  assert (Hget : ∀ r, exec n (EGet (EVal (VRef p)) k) s0 = r → r ≠ OutOfFuel →
                      ∃ w s1, r = Ret w s1 ∧ h ∈ deps_of s1 o k).
  { intros r Hr Hne. destruct n as [|n]; [by subst r|]. simpl in Hr.
    unfold bind in Hr. destruct n as [|n]; [by subst r|]. simpl in Hr.
    rewrite bool_decide_eq_true_2 in Hr by (by eapply lookup_lt_Some).
    assert (Hp0 : heap s0 !! p = Some (Proxy o)) by done.
    rewrite (getV_proxy _ _ _ _ Hp0) in Hr. unfold lift in Hr.
    destruct (baseHandler_get o k p s0) as [w s1] eqn:Eg.
    exists w, s1. split; [done|].
    eapply baseHandler_get_keeps_edge; [|exact Eg]. simpl. apply last_snoc. }
  apply bind_final in Hc as [[v Hc]|(w & s1 & He & Hc)].
  - destruct (Hget _ Hc) as (? & ? & ? & _); done.
  - destruct (Hget _ He) as (w' & s1' & [= <- <-] & Hin); [done|].
    eapply elem_of_prefix; [exact Hin|].
    apply (ext_deps _ _ (exec_extends n rest s1 s2 Hc)).
Qed.

Lemma failed_run_stays_subscribed_witness :
  let s := (reactive (VRef 0) (init heap_a)).2 in
  let fn := ESeq (EGet (EVal (VRef 1)) "a") (EThrow (EVal (VStr "boom"))) in
  length (effects s) ∈ deps_of (store_after (exec 9 (EEffect fn) s)) 0 "a".
Proof.
  exact (failed_run_stays_subscribed 9 (reactive (VRef 0) (init heap_a)).2 1 0 "a"
           (EThrow (EVal (VStr "boom")))
           (store_after (exec 9 (EEffect (ESeq (EGet (EVal (VRef 1)) "a")
                                   (EThrow (EVal (VStr "boom")))))
                           (reactive (VRef 0) (init heap_a)).2))
           ltac:(vm_compute; reflexivity) ltac:(vm_compute; reflexivity)).
Defined.

(** ** Wrappers as property values *)

(** X15. Reading through a wrapper a property that holds a wrapper
    returns that very wrapper: the get trap tracks the read and hands the
    stored proxy back, without making a proxy of it and without touching the
    heap or the registries. *)
Theorem stored_wrapper_is_read_back s p o k q t :
  wf s →
  heap s !! p = Some (Proxy o) →
  Reflect_get s o k = VRef q →
  heap s !! q = Some (Proxy t) →
  getV (VRef p) k s = Ret (VRef q) (track o k s) ∧
  heap (track o k s) = heap s ∧
  toProxy (track o k s) = toProxy s ∧
  toRaw (track o k s) = toRaw s.
Proof.
  intros Hwf Hp Hg Hq.
  split; [|by rewrite track_heap, track_toProxy, track_toRaw].
  rewrite (getV_proxy _ _ _ _ Hp). unfold lift, baseHandler_get.
  rewrite Hg. simpl. rewrite reactive_cases.
  rewrite track_toProxy, track_toRaw.
  rewrite (wf_proxy_unwrapped _ _ _ Hwf Hq), (wf_proxy _ Hwf _ _ Hq).
  by rewrite bool_decide_eq_true_2 by eauto.
Qed.

(** [o = { a: 1 }], [reactive(o).self = reactive(o)], then the read of
    [reactive(o).self]. *)
Lemma stored_wrapper_is_read_back_witness :
  let s := store_after (exec 9 (ESet (wrap 0) "self" (wrap 0)) (init heap_a)) in
  getV (VRef 1) "self" s = Ret (VRef 1) (track 0 "self" s) ∧
  heap (track 0 "self" s) = heap s ∧
  toProxy (track 0 "self" s) = toProxy s ∧
  toRaw (track 0 "self" s) = toRaw s.
Proof.
  apply (stored_wrapper_is_read_back
           (store_after (exec 9 (ESet (wrap 0) "self" (wrap 0)) (init heap_a)))
           1 0 "self" 1 0).
  - apply (exec_wf_final 9 (ESet (wrap 0) "self" (wrap 0)) (init heap_a));
      [apply wf_heap_a|vm_compute; reflexivity].
  - vm_compute; reflexivity.
  - vm_compute; reflexivity.
  - vm_compute; reflexivity.
Defined.
